(** * git-tag-action: the version-decision engine of [src/main.ts]

    The action validates the release label of a pull request and, on a merge,
    resolves the pull request of the merged commit, reads its label, picks a
    base tag among the repository tags, bumps it with the npm package [semver]
    and creates the new tag reference.

    Layout of the development:
    - [JS]         : thrown values, the exception monad, string and array
                     primitives of the language run-time used by the source;
    - [Semver]     : the interface of the [semver] package used by the source;
    - [NodeSemver] : the functions [valid], [compare] and [inc] of that package;
    - [Action]     : the collaborators (@actions/core, @actions/github, Octokit)
                     as a world of answers and a log of calls, and the source
                     functions of [main.ts] over them;
    - [Examples]   : sample repositories;
    - the facts about sorting, the version order, parsing and printing, the
      selection of the base tag, the increment, label validation, the
      release decision and the invocation boundary;
    - the properties of the specification, in the modules [Claims_Label],
      [Claims_Decision], [Claims_Boundary], [Claims_Selection] and
      [Claims_Increment]. *)

From Stdlib Require Import String Ascii List Bool ZArith NArith Lia Permutation.
From Stdlib Require Import DecimalString DecimalN DecimalFacts OrderedTypeEx.
Import ListNotations.

#[local] Open Scope list_scope.
#[local] Open Scope string_scope.

(* ================================================================== *)
(** ** The JavaScript run-time the source relies on *)
(* ================================================================== *)

Module JS.

(** What a [throw] statement raises: an instance of [Error] (or of a subclass
    such as [TypeError] or Octokit's [RequestError]) carrying its [message],
    or a value that is not an instance of [Error]. *)
Inductive Thrown : Type :=
| Error (message : string)
| NonError (value : string).

(** A synchronous computation that returns or throws. *)
Definition Exc (A : Type) : Type := (Thrown + A)%type.

Definition ok {A : Type} (a : A) : Exc A := inr a.
Definition throw {A : Type} (e : Thrown) : Exc A := inl e.

Definition bind {A B : Type} (m : Exc A) (k : A -> Exc B) : Exc B :=
  match m with
  | inl e => inl e
  | inr a => k a
  end.

(** [String.prototype.trim] strips white space and line terminators; among the
    code units below 256 these are TAB, LF, VT, FF, CR, SP and NBSP. *)
Definition isWhiteSpace (c : ascii) : bool :=
  let n := N_of_ascii c in
  ((9 <=? n) && (n <=? 13) || (n =? 32) || (n =? 160))%N.

Fixpoint trimStart (s : string) : string :=
  match s with
  | EmptyString => EmptyString
  | String c r => if isWhiteSpace c then trimStart r else s
  end.

Fixpoint trimEnd (s : string) : string :=
  match s with
  | EmptyString => EmptyString
  | String c r =>
      let r' := trimEnd r in
      if isWhiteSpace c && (r' =? "") then EmptyString else String c r'
  end.

Definition trim (s : string) : string := trimEnd (trimStart s).

(** [s.split(sep)] for a one-character separator. *)
Fixpoint split (sep : ascii) (s : string) : list string :=
  match s with
  | EmptyString => [EmptyString]
  | String c r =>
      if Ascii.eqb c sep then EmptyString :: split sep r
      else match split sep r with
           | x :: xs => String c x :: xs
           | [] => [String c EmptyString]
           end
  end.

(** [xs.join(sep)]. *)
Definition join (sep : string) (xs : list string) : string :=
  String.concat sep xs.

(** [xs.includes(x)] on an array of strings. *)
Definition includes (xs : list string) (x : string) : bool :=
  existsb (String.eqb x) xs.

(** [Array.prototype.sort(cmp)].  For a consistent comparator the language
    fixes the result: the elements in ascending order of [cmp], elements that
    compare equal kept in their original order (the sort is stable).  That
    result is computed here by stable insertion; a comparator that throws
    aborts the sort with what it threw.  For a comparator that is not
    consistent the language leaves the order to the implementation: the
    statements about the order of the result assume a consistent
    comparator, the others hold for every rearrangement. *)
Fixpoint insert {A : Type} (cmp : A -> A -> Exc Z) (x : A) (l : list A)
  : Exc (list A) :=
  match l with
  | [] => ok [x]
  | y :: l' =>
      bind (cmp x y) (fun c =>
        if (c <=? 0)%Z then ok (x :: y :: l')
        else bind (insert cmp x l') (fun r => ok (y :: r)))
  end.

Fixpoint sort {A : Type} (cmp : A -> A -> Exc Z) (l : list A) : Exc (list A) :=
  match l with
  | [] => ok []
  | x :: l' => bind (sort cmp l') (insert cmp x)
  end.

(** [a] is not placed after [b] by the comparator: [cmp(a, b) <= 0]. *)
Definition notAfter {A : Type} (cmp : A -> A -> Exc Z) (a b : A) : Prop :=
  exists c, cmp a b = inr c /\ (c <= 0)%Z.

(** The first element of a list is not placed after any element of it. *)
Definition headLowest {A : Type} (cmp : A -> A -> Exc Z) (l : list A) : Prop :=
  match l with
  | [] => True
  | h :: _ => Forall (notAfter cmp h) l
  end.

(** The value of [+s] for a string of decimal digits and of [String(n)] for a
    non-negative integer.  A JavaScript number is a double: an integer above
    2^53 is rounded to 53 significant bits, ties to even. *)
Definition toDouble (n : N) : N :=
  if (n <? 2 ^ 53)%N then n
  else
    let e := (N.log2 n - 52)%N in
    let q := N.shiftr n e in
    let r := (n - N.shiftl q e)%N in
    let half := N.shiftl 1 (e - 1) in
    let q' := if (half <? r)%N || ((r =? half)%N && N.odd q)
              then (q + 1)%N else q in
    N.shiftl q' e.

Definition Number (s : string) : N :=
  match NilEmpty.uint_of_string s with
  | Some d => toDouble (N.of_uint d)
  | None => 0%N
  end.

Definition toString (n : N) : string :=
  NilEmpty.string_of_uint (N.to_uint n).

(** What makes a comparator with results -1, 0 and 1 consistent on the
    values that satisfy [D]: it is reflexive and antisymmetric, values that
    compare equal compare alike with every other value, and "before" is
    transitive. *)
Record Consistent {A : Type} (D : A -> Prop) (c : A -> A -> Z) : Prop := {
  consistent_range :
    forall a b, D a -> D b -> c a b = (-1)%Z \/ c a b = 0%Z \/ c a b = 1%Z;
  consistent_refl : forall a, D a -> c a a = 0%Z;
  consistent_antisym : forall a b, D a -> D b -> c b a = (- c a b)%Z;
  consistent_eq :
    forall a b d, D a -> D b -> D d -> c a b = 0%Z -> c a d = c b d;
  consistent_lt :
    forall a b d, D a -> D b -> D d ->
      c a b = (-1)%Z -> c b d = (-1)%Z -> c a d = (-1)%Z
}.

End JS.

(* ================================================================== *)
(** ** The [semver] package as the source sees it *)
(* ================================================================== *)

(** [main.ts] imports three functions of the package: [semver.valid] (a
    normalised version string or [null]), [semver.compare] (-1, 0 or 1, and a
    [TypeError] on an argument that is not a version) and [semver.inc] (the
    bumped version string or [null]). *)
Class Semver : Type := {
  valid : string -> option string;
  compare : string -> string -> JS.Exc Z;
  inc : string -> string -> option string
}.

(** The package itself is a dependency and not part of the sources of the
    repository.  [NodeSemver] embeds the three functions as the package
    implements them in strict (non-loose) mode: the grammar of
    [internal/re.js], the class of [classes/semver.js] and the wrappers of
    [functions/valid.js], [functions/compare.js] and [functions/inc.js], as
    in the 7.x releases whose [parse] calls the constructor in a [try].
    Strings are sequences of code units below 256. *)
Module NodeSemver.

Import JS.

Definition MAX_LENGTH : nat := 256.
Definition MAX_SAFE_INTEGER : N := 9007199254740991.

Definition isDigit (c : ascii) : bool :=
  let n := N_of_ascii c in ((48 <=? n) && (n <=? 57))%N.

(** [[a-zA-Z-]] *)
Definition isLetterDash (c : ascii) : bool :=
  let n := N_of_ascii c in
  ((65 <=? n) && (n <=? 90) || (97 <=? n) && (n <=? 122) || (n =? 45))%N.

(** [[a-zA-Z0-9-]] *)
Definition isLetterDashNumber (c : ascii) : bool :=
  isDigit c || isLetterDash c.

Fixpoint allChars (p : ascii -> bool) (s : string) : bool :=
  match s with
  | EmptyString => true
  | String c r => p c && allChars p r
  end.

(** NUMERICIDENTIFIER: [0|[1-9]\d*] *)
Definition isNumericIdentifier (s : string) : bool :=
  match s with
  | EmptyString => false
  | String c r =>
      if Ascii.eqb c "0" then (r =? "") else isDigit c && allChars isDigit r
  end.

(** NONNUMERICIDENTIFIER: [\d*[a-zA-Z-][a-zA-Z0-9-]*] *)
Fixpoint isNonNumericIdentifier (s : string) : bool :=
  match s with
  | EmptyString => false
  | String c r =>
      if isDigit c then isNonNumericIdentifier r
      else isLetterDash c && allChars isLetterDashNumber r
  end.

(** PRERELEASEIDENTIFIER: [(?:NUMERICIDENTIFIER|NONNUMERICIDENTIFIER)] *)
Definition isPrereleaseIdentifier (s : string) : bool :=
  isNumericIdentifier s || isNonNumericIdentifier s.

(** BUILDIDENTIFIER: [[a-zA-Z0-9-]+] *)
Definition isBuildIdentifier (s : string) : bool :=
  negb (s =? "") && allChars isLetterDashNumber s.

(** [/^[0-9]+$/] *)
Definition isNumeric (s : string) : bool :=
  negb (s =? "") && allChars isDigit s.

(** The text before the first [sep] and, when there is one, the text after. *)
Fixpoint splitFirst (sep : ascii) (s : string) : string * option string :=
  match s with
  | EmptyString => (EmptyString, None)
  | String c r =>
      if Ascii.eqb c sep then (EmptyString, Some r)
      else let '(a, b) := splitFirst sep r in (String c a, b)
  end.

(** The capture groups of a match of FULL: an optional [v], three numeric
    identifiers separated by dots (groups 1 to 3), optionally [-] and
    pre-release identifiers separated by dots (group 4), optionally [+] and
    build identifiers separated by dots (group 5), anchored at both ends.
    The main version holds neither [-] nor [+] and a pre-release holds no
    [+], so the build starts at the first [+] and the pre-release at the
    first [-] before it. *)
Record Match : Type := {
  m1 : string; m2 : string; m3 : string;
  m4 : option string; m5 : option string
}.

(** The optional [v] at the start of FULL. *)
Definition withoutV (s : string) : string :=
  match s with
  | String "v"%char r => r
  | _ => s
  end.

Definition matchFULL (s : string) : option Match :=
  let '(mp, g5) := splitFirst "+" (withoutV s) in
  let '(main, g4) := splitFirst "-" mp in
  match split "." main with
  | [a; b; c] =>
      if isNumericIdentifier a && isNumericIdentifier b && isNumericIdentifier c
         && match g4 with
            | None => true
            | Some p => forallb isPrereleaseIdentifier (split "." p)
            end
         && match g5 with
            | None => true
            | Some b => forallb isBuildIdentifier (split "." b)
            end
      then Some {| m1 := a; m2 := b; m3 := c; m4 := g4; m5 := g5 |}
      else None
  | _ => None
  end.

(** An element of [prerelease]: a number or a string. *)
Inductive Identifier : Type :=
| INum (n : N)
| IStr (s : string).

(** The fields of a [SemVer] object that the three functions read; [version]
    is recomputed by [format] wherever the class reads it. *)
Record SemVer : Type := {
  major : N; minor : N; patch : N;
  prerelease : list Identifier;
  build : list string
}.

Definition prereleaseIdentifier (id : string) : Identifier :=
  if isNumeric id then
    let num := Number id in
    if (num <? MAX_SAFE_INTEGER)%N then INum num else IStr id
  else IStr id.

(** [new SemVer(version)] *)
Definition new (version : string) : Exc SemVer :=
  if (MAX_LENGTH <? String.length version)%nat then
    throw (Error "version is longer than 256 characters")
  else
    match matchFULL (trim version) with
    | None => throw (Error ("Invalid Version: " ++ version))
    | Some m =>
        let major := Number (m1 m) in
        let minor := Number (m2 m) in
        let patch := Number (m3 m) in
        if (MAX_SAFE_INTEGER <? major)%N then
          throw (Error "Invalid major version")
        else if (MAX_SAFE_INTEGER <? minor)%N then
          throw (Error "Invalid minor version")
        else if (MAX_SAFE_INTEGER <? patch)%N then
          throw (Error "Invalid patch version")
        else
          ok {| major := major; minor := minor; patch := patch;
                prerelease := match m4 m with
                              | None => []
                              | Some p => map prereleaseIdentifier (split "." p)
                              end;
                build := match m5 m with
                         | None => []
                         | Some b => split "." b
                         end |}
    end.

Definition identifierString (a : Identifier) : string :=
  match a with
  | INum n => toString n
  | IStr s => s
  end.

(** [format()], the value of the [version] field. *)
Definition format (v : SemVer) : string :=
  let main := toString (major v) ++ "." ++ toString (minor v) ++ "."
              ++ toString (patch v) in
  match prerelease v with
  | [] => main
  | _ :: _ => main ++ "-" ++ join "." (map identifierString (prerelease v))
  end.

(** [numeric.test(a)]: a number prints as digits. *)
Definition numericTest (a : Identifier) : bool :=
  match a with
  | INum _ => true
  | IStr s => isNumeric s
  end.

(** [+a] *)
Definition identifierNumber (a : Identifier) : N :=
  match a with
  | INum n => n
  | IStr s => Number s
  end.

(** [a === b] *)
Definition strictEq (a b : Identifier) : bool :=
  match a, b with
  | INum x, INum y => (x =? y)%N
  | IStr x, IStr y => (x =? y)%string
  | _, _ => false
  end.

(** [compareIdentifiers(a, b)] of [internal/identifiers.js]. *)
Definition compareIdentifiers (a b : Identifier) : Z :=
  let anum := numericTest a in
  let bnum := numericTest b in
  if anum && bnum then
    let x := identifierNumber a in
    let y := identifierNumber b in
    if (x =? y)%N then 0%Z else if (x <? y)%N then (-1)%Z else 1%Z
  else if strictEq a b then 0%Z
  else if anum && negb bnum then (-1)%Z
  else if bnum && negb anum then 1%Z
  else if String.ltb (identifierString a) (identifierString b) then (-1)%Z
  else 1%Z.

(** [x || y] on numbers. *)
Definition orElse (x y : Z) : Z := if (x =? 0)%Z then y else x.

Definition compareMain (this other : SemVer) : Z :=
  orElse (compareIdentifiers (INum (major this)) (INum (major other)))
    (orElse (compareIdentifiers (INum (minor this)) (INum (minor other)))
            (compareIdentifiers (INum (patch this)) (INum (patch other)))).

(** The [do ... while (++i)] loop of [comparePre]. *)
Fixpoint comparePreLoop (a b : list Identifier) : Z :=
  match a, b with
  | [], [] => 0%Z
  | _ :: _, [] => 1%Z
  | [], _ :: _ => (-1)%Z
  | x :: a', y :: b' =>
      if strictEq x y then comparePreLoop a' b' else compareIdentifiers x y
  end.

Definition comparePre (this other : SemVer) : Z :=
  match prerelease this, prerelease other with
  | _ :: _, [] => (-1)%Z
  | [], _ :: _ => 1%Z
  | [], [] => 0%Z
  | a, b => comparePreLoop a b
  end.

(** [this.compare(other)] for two [SemVer] objects. *)
Definition compareSemVer (this other : SemVer) : Z :=
  if (format other =? format this)%string then 0%Z
  else orElse (compareMain this other) (comparePre this other).

(** [this.inc(release)] for the release types [major], [minor] and [patch].
    [publishGitTag] passes a member of [validLabels] other than [no-release],
    so these three are the ones the action reaches; the pre-release release
    types of the package are outside this embedding and any other string
    throws, as in the [default] branch. *)
Definition incSemVer (v : SemVer) (release : string) : Exc SemVer :=
  if release =? "major" then
    ok {| major := if negb (minor v =? 0)%N || negb (patch v =? 0)%N
                      || (length (prerelease v) =? 0)%nat
                   then (major v + 1)%N else major v;
          minor := 0; patch := 0; prerelease := []; build := build v |}
  else if release =? "minor" then
    ok {| major := major v;
          minor := if negb (patch v =? 0)%N || (length (prerelease v) =? 0)%nat
                   then (minor v + 1)%N else minor v;
          patch := 0; prerelease := []; build := build v |}
  else if release =? "patch" then
    ok {| major := major v; minor := minor v;
          patch := if (length (prerelease v) =? 0)%nat
                   then (patch v + 1)%N else patch v;
          prerelease := []; build := build v |}
  else throw (Error ("invalid increment argument: " ++ release)).

(** A version string without the surrounding white space, the leading [v]
    and the build metadata: the part that [compare] reads. *)
Definition coreVersion (version : string) : string :=
  fst (splitFirst "+" (withoutV (trim version))).

(** A pre-release identifier that the comparison reads exactly: a number,
    or a string that is not all digits.  A string of digits stays a string in
    [prerelease] when its value is [MAX_SAFE_INTEGER] or more, and
    [compareIdentifiers] then compares it as a rounded double. *)
Definition exactIdentifier (a : Identifier) : bool :=
  match a with
  | INum _ => true
  | IStr s => negb (isNumeric s)
  end.

Definition exactVersion (v : SemVer) : bool :=
  forallb exactIdentifier (prerelease v).

(** A tag that is not a version, or a version whose pre-release identifiers
    are all read exactly. *)
Definition exactTag (version : string) : bool :=
  match new version with
  | inr v => exactVersion v
  | inl _ => true
  end.

(** [semver.valid(version)] *)
Definition valid (version : string) : option string :=
  match new version with
  | inr v => Some (format v)
  | inl _ => None
  end.

(** [semver.compare(a, b)] *)
Definition compare (a b : string) : Exc Z :=
  bind (new a) (fun x => bind (new b) (fun y => ok (compareSemVer x y))).

(** [semver.inc(version, release)] *)
Definition inc (version release : string) : option string :=
  match bind (new version) (fun v => incSemVer v release) with
  | inr v => Some (format v)
  | inl _ => None
  end.

End NodeSemver.

#[export] Instance nodeSemver : Semver := {|
  valid := NodeSemver.valid;
  compare := NodeSemver.compare;
  inc := NodeSemver.inc
|}.

(* ================================================================== *)
(** ** The collaborators and the source functions of [main.ts] *)
(* ================================================================== *)

Module Action.

Import JS.

(** *** Data of the hosting platform *)

Module Label.
Record t : Type := { name : string }.
End Label.

(** The part of the [pull-request] schema the source reads. *)
Record PullRequest : Type := {
  number : Z;
  labels : list Label.t
}.

Module Tag.
Record t : Type := { name : string; commit_sha : string }.
End Tag.

(** [github.context]: the repository, the triggering commit and, on a
    pull-request event, the number of the pull request of the payload. *)
Record Context : Type := {
  owner : string;
  repo : string;
  sha : string;
  payload_pull_request : option Z
}.

(** The answers of an Octokit client, one per endpoint the source calls:
    the pull requests associated with a commit, a pull request by number,
    the pages of the tag listing, and the creation of a reference.  Each
    answer is a response or the value the rejected promise carries. *)
Record Octokit : Type := {
  commits_pulls : string -> Exc (list PullRequest);
  pulls_get : Z -> Exc PullRequest;
  listTags : Exc (list (list Tag.t));
  createRef : string -> string -> Exc unit
}.

(** The environment of one invocation. *)
Record World : Type := {
  context : Context;
  getInput : string -> string;
  getOctokit : string -> Exc Octokit
}.

(** *** The log of calls *)

(** The calls that reach a collaborator, in the order they are made. *)
Inductive Event : Type :=
| RequestCommitPulls (commit_sha : string)
| PullsGet (pull_number : Z)
| PaginateListTags
| CreateRef (ref : string) (commit_sha : string)
| LogInfo (message : string)
| SetOutput (name : string) (value : string)
| SetFailed (message : string).

(** [core.setFailed] also sets the exit code of the process to 1. *)
Record State : Type := {
  calls : list Event;
  exitCode : Z
}.

Definition initial : State := {| calls := []; exitCode := 0 |}.

(** *** The monad of an [async] function: a log, and a result or a throw *)

Definition M (A : Type) : Type := State -> State * Exc A.

Definition ret {A : Type} (a : A) : M A := fun s => (s, inr a).

Definition raise {A : Type} (e : Thrown) : M A := fun s => (s, inl e).

Definition bindM {A B : Type} (m : M A) (k : A -> M B) : M B :=
  fun s =>
    match m s with
    | (s', inl e) => (s', inl e)
    | (s', inr a) => k a s'
    end.

Definition lift {A : Type} (x : Exc A) : M A := fun s => (s, x).

Definition emit (e : Event) : M unit :=
  fun s => ({| calls := calls s ++ [e]; exitCode := exitCode s |}, inr tt).

(** [try { body } catch (error) { handler }] *)
Definition tryCatch {A : Type} (body : M A) (handler : Thrown -> M A) : M A :=
  fun s =>
    match body s with
    | (s', inl e) => handler e s'
    | (s', inr a) => (s', inr a)
    end.

Declare Scope action_scope.
Delimit Scope action_scope with action.

Notation "x <- m ;; k" := (bindM m (fun x => k))
  (at level 61, m at next level, right associativity) : action_scope.
Notation "m ;; k" := (bindM m (fun _ => k))
  (at level 61, right associativity) : action_scope.

#[local] Open Scope action_scope.

(** *** @actions/core *)

Definition core_info (message : string) : M unit := emit (LogInfo message).

Definition core_setOutput (name value : string) : M unit :=
  emit (SetOutput name value).

Definition core_setFailed (message : string) : M unit :=
  fun s => ({| calls := calls s ++ [SetFailed message]; exitCode := 1 |},
            inr tt).

(** *** Octokit *)

(** [octokit.request('GET /repos/{owner}/{repo}/commits/{commit_sha}/pulls')],
    the [data] of the response. *)
Definition request_commits_pulls (octokit : Octokit) (commit_sha : string)
  : M (list PullRequest) :=
  emit (RequestCommitPulls commit_sha) ;; lift (commits_pulls octokit commit_sha).

(** [octokit.rest.pulls.get], the [data] of the response. *)
Definition rest_pulls_get (octokit : Octokit) (pull_number : Z) : M PullRequest :=
  emit (PullsGet pull_number) ;; lift (pulls_get octokit pull_number).

(** [octokit.paginate(octokit.rest.repos.listTags, params, mapFn)]: every page
    is fetched, [mapFn] is applied to each and the results are concatenated. *)
Definition paginate_listTags {A : Type} (octokit : Octokit)
  (mapFn : list Tag.t -> list A) : M (list A) :=
  emit PaginateListTags ;;
  pages <- lift (listTags octokit) ;;
  ret (concat (map mapFn pages)).

(** [octokit.rest.git.createRef] *)
Definition rest_git_createRef (octokit : Octokit) (ref commit_sha : string)
  : M unit :=
  emit (CreateRef ref commit_sha) ;; lift (createRef octokit ref commit_sha).

(** *** [main.ts] *)

Definition patch : string := "patch".
Definition minor : string := "minor".
Definition major : string := "major".
Definition noRelease : string := "no-release".

Definition validLabels : list string := [patch; minor; major; noRelease].

(** [it => validLabels.includes(it.name)] *)
Definition isValidLabel (it : Label.t) : bool :=
  includes validLabels (Label.name it).

Definition validatePullRequestLabel (pr : PullRequest) : Exc unit :=
  if negb (existsb isValidLabel (labels pr)) then
    throw (Error ("Please set one of the following label : "
                  ++ join ", " validLabels))
  else
    let count := length (filter isValidLabel (labels pr)) in
    if negb (count =? 1)%nat then throw (Error "Exactly one label must be set")
    else ok tt.

(** [pr.labels.filter(it => validLabels.includes(it.name))[0].name], the
    expression [publishGitTag] binds to [bump]; reading [name] of the first
    element of an empty array is a [TypeError]. *)
Definition bumpOf (pr : PullRequest) : Exc string :=
  match filter isValidLabel (labels pr) with
  | it :: _ => ok (Label.name it)
  | [] => throw (Error "Cannot read properties of undefined (reading 'name')")
  end.

(** A double quote. *)
Definition dquote : string := String (ascii_of_nat 34) EmptyString.

Section Program.

Context {semver : Semver}.
Variable world : World.

Definition pullRequestFromCommitSha (octokit : Octokit) : M PullRequest :=
  prList <- request_commits_pulls octokit (sha (context world)) ;;
  if (length prList =? 0)%nat then
    raise (Error ("Cannot find any Pull Request associated with "
                  ++ sha (context world)))
  else if negb (length prList =? 1)%nat then
    raise (Error ("Multiple Pull Requests found for " ++ sha (context world)))
  else
    (* [prList.data[0]]: the array has one element here *)
    match prList with
    | pr :: _ => ret pr
    | [] => raise (Error "undefined")
    end.

(** [tag => semver.valid(tag.name) !== null] *)
Definition isSemverTag (tag : Tag.t) : bool :=
  match valid (Tag.name tag) with
  | Some _ => true
  | None => false
  end.

Definition getLatestTag (octokit : Octokit) : M (option string) :=
  tagsList <- paginate_listTags octokit (fun data => filter isSemverTag data) ;;
  tagsList <- lift (sort (fun x y => compare (Tag.name x) (Tag.name y))
                         tagsList) ;;
  if (length tagsList =? 0)%nat then ret None
  else
    (* [tagsList[0].name]: the array is not empty here *)
    match tagsList with
    | tag :: _ => ret (Some (Tag.name tag))
    | [] => ret None
    end.

Definition publishTag (octokit : Octokit) (tag : string) : M unit :=
  core_info ("Tagging " ++ sha (context world) ++ " with tag " ++ tag) ;;
  rest_git_createRef octokit ("refs/tags/" ++ tag) (sha (context world)).

Definition incrementTag (tag bump : string) : Exc string :=
  match inc tag bump with
  | None =>
      throw (Error ("failed to increment tag " ++ dquote ++ tag ++ dquote
                    ++ " with bump " ++ bump))
  | Some newTag => ok newTag
  end.

Definition publishGitTag (octokit : Octokit) : M string :=
  pr <- pullRequestFromCommitSha octokit ;;
  lift (validatePullRequestLabel pr) ;;
  bump <- lift (bumpOf pr) ;;
  if bump =? noRelease then
    core_info (noRelease ++ " label detected, skipping release") ;;
    ret ""
  else
    latestTag <- getLatestTag octokit ;;
    newTag <- match latestTag with
              | None => ret (getInput world "initial_tag")
              | Some latestTag => lift (incrementTag latestTag bump)
              end ;;
    publishTag octokit newTag ;;
    ret newTag.

(** The [try] block of [main]. *)
Definition tryBlock : M unit :=
  octokit <- lift (getOctokit world (getInput world "github_token")) ;;
  match payload_pull_request (context world) with
  | Some pull_number =>
      pr <- rest_pulls_get octokit pull_number ;;
      lift (validatePullRequestLabel pr)
  | None =>
      newTag <- publishGitTag octokit ;;
      core_setOutput "tag" newTag
  end.

(** The [catch] block of [main]:
    [if (error instanceof Error) core.setFailed(error.message)]. *)
Definition catchBlock (error : Thrown) : M unit :=
  match error with
  | Error message => core_setFailed message
  | NonError _ => ret tt
  end.

Definition main : M unit := tryCatch tryBlock catchBlock.

End Program.

(** *** Vocabulary of the statements *)

(** The failures the source raises itself, by the names the specification
    gives them. *)
Definition MissingLabel : Thrown :=
  Error "Please set one of the following label : patch, minor, major, no-release".

Definition AmbiguousLabel : Thrown := Error "Exactly one label must be set".

Definition NoAssociatedPullRequest (commit_sha : string) : Thrown :=
  Error ("Cannot find any Pull Request associated with " ++ commit_sha).

Definition AmbiguousAssociatedPullRequest (commit_sha : string) : Thrown :=
  Error ("Multiple Pull Requests found for " ++ commit_sha).

(** The number of labels of a pull request that are release labels. *)
Definition releaseLabelCount (pr : PullRequest) : nat :=
  length (filter isValidLabel (labels pr)).

(** A pull request stripped of the labels that are not release labels. *)
Definition releaseLabelsOnly (pr : PullRequest) : PullRequest :=
  {| number := number pr; labels := filter isValidLabel (labels pr) |}.

(** A client that differs from [octokit] in the pull requests it associates
    with a commit, and one that differs in the pages of its tag listing. *)
Definition withPulls (octokit : Octokit) (prs : list PullRequest) : Octokit :=
  {| commits_pulls := fun _ => inr prs;
     pulls_get := pulls_get octokit;
     listTags := listTags octokit;
     createRef := createRef octokit |}.

Definition withTags (octokit : Octokit) (pages : list (list Tag.t)) : Octokit :=
  {| commits_pulls := commits_pulls octokit;
     pulls_get := pulls_get octokit;
     listTags := inr pages;
     createRef := createRef octokit |}.

(** The names of the tags of a listing, all pages in order. *)
Definition tagNames (pages : list (list Tag.t)) : list string :=
  map Tag.name (concat pages).

(** [isSemverTag] as a test on the name. *)
Definition isSemverName `{Semver} (name : string) : bool :=
  match valid name with
  | Some _ => true
  | None => false
  end.

(** What [getLatestTag] returns, as a function of the names of the tags the
    listing answers (lemma [getLatestTag_selectLatest]). *)
Definition selectLatest `{Semver} (names : list string) : Exc (option string) :=
  match sort compare (filter isSemverName names) with
  | inl e => inl e
  | inr [] => inr None
  | inr (name :: _) => inr (Some name)
  end.

(** The state after the calls [log] were made from state [s], and the same
    with the exit code set as [core.setFailed] sets it. *)
Definition after (s : State) (log : list Event) : State :=
  {| calls := calls s ++ log; exitCode := exitCode s |}.

Definition afterFailure (s : State) (log : list Event) : State :=
  {| calls := calls s ++ log; exitCode := 1 |}.

Definition isCreateRef (e : Event) : bool :=
  match e with
  | CreateRef _ _ => true
  | _ => false
  end.

Definition isSetFailed (e : Event) : bool :=
  match e with
  | SetFailed _ => true
  | _ => false
  end.

Definition isSetOutput (e : Event) : bool :=
  match e with
  | SetOutput _ _ => true
  | _ => false
  end.

Definition isPaginateListTags (e : Event) : bool :=
  match e with
  | PaginateListTags => true
  | _ => false
  end.

(** A computation that leaves the exit code alone and never calls
    [core.setFailed]. *)
Definition quiet {A : Type} (m : M A) : Prop :=
  forall s, exists log,
    fst (m s) = after s log /\ existsb isSetFailed log = false.

End Action.

(* ================================================================== *)
(** ** Sample repositories *)
(* ================================================================== *)

Module Examples.

Import JS Action.

Definition tag (name : string) : Tag.t :=
  {| Tag.name := name; Tag.commit_sha := "" |}.

Definition pullRequest (names : list string) : PullRequest :=
  {| number := 1; labels := map Label.Build_t names |}.

(** A client for a repository whose merged commit has the pull requests
    [prs] and whose tags are [tags], in one page; creating a reference
    succeeds. *)
Definition octokit (prs : list PullRequest) (tags : list string) : Octokit :=
  {| commits_pulls := fun _ => inr prs;
     pulls_get := fun _ => inl (Error "Not Found");
     listTags := inr [map tag tags];
     createRef := fun _ _ => inr tt |}.

(** A client whose every request is rejected with [e]. *)
Definition rejecting (e : Thrown) : Octokit :=
  {| commits_pulls := fun _ => inl e;
     pulls_get := fun _ => inl e;
     listTags := inl e;
     createRef := fun _ _ => inl e |}.

(** A merge event on that repository, with [initial_tag] set to 0.1.0. *)
Definition world (client : Exc Octokit) : World :=
  {| context := {| owner := "octo"; repo := "repo"; sha := "3f1c2ab";
                   payload_pull_request := None |};
     getInput := fun name => if name =? "initial_tag" then "0.1.0" else "token";
     getOctokit := fun _ => client |}.

End Examples.

(* ================================================================== *)
(** ** Counting calls *)
(* ================================================================== *)

Module Calls.

Import JS Action.

(** The number of calls of a log that satisfy [p]. *)
Definition count (p : Event -> bool) (log : list Event) : nat :=
  length (filter p log).

Definition isRequestCommitPulls (e : Event) : bool :=
  match e with
  | RequestCommitPulls _ => true
  | _ => false
  end.

Definition isPullsGet (e : Event) : bool :=
  match e with
  | PullsGet _ => true
  | _ => false
  end.

(** The log line of [publishTag] and the name of the reference it creates. *)
Definition tagging (commit tag : string) : string :=
  "Tagging " ++ commit ++ " with tag " ++ tag.

Definition tagRef (tag : string) : string := "refs/tags/" ++ tag.

(** The log line of the skip. *)
Definition skipping : string := "no-release label detected, skipping release".

(** The message of the error [incrementTag] throws. *)
Definition incrementFailure (tag bump : string) : string :=
  "failed to increment tag " ++ dquote ++ tag ++ dquote ++ " with bump " ++ bump.

(** The four sequences of calls of [publishGitTag] and what it returns or
    throws after each: it stops after the pull-request query, skips, stops
    after the tag listing, or asks for the reference of [tag]. *)
Inductive Outcome (octokit : Octokit) (commit : string)
  : list Event -> Exc string -> Prop :=
| StoppedAtPullRequest (e : Thrown) :
    Outcome octokit commit [RequestCommitPulls commit] (inl e)
| Skipped :
    Outcome octokit commit
      [RequestCommitPulls commit; LogInfo skipping] (inr "")
| StoppedAtListing (e : Thrown) :
    Outcome octokit commit [RequestCommitPulls commit; PaginateListTags] (inl e)
| Requested (tag : string) :
    Outcome octokit commit
      [RequestCommitPulls commit; PaginateListTags;
       LogInfo (tagging commit tag); CreateRef (tagRef tag) commit]
      match createRef octokit (tagRef tag) commit with
      | inl e => inl e
      | inr _ => inr tag
      end.

(** An element of a list that every earlier element is placed after by the
    comparator and that is not placed after any later element. *)
Definition firstLowest {A : Type} (cmp : A -> A -> Exc Z) (l : list A) (h : A)
  : Prop :=
  exists before rest,
    l = (before ++ h :: rest)%list /\
    Forall (fun y => exists c, cmp y h = inr c /\ (0 < c)%Z) before /\
    Forall (notAfter cmp h) rest.

(** A thrown value that is an instance of [Error]. *)
Definition isError (e : Thrown) : bool :=
  match e with
  | Error _ => true
  | NonError _ => false
  end.

(** A result that is a value or a thrown instance of [Error], and a
    computation that throws instances of [Error] only. *)
Definition throwsErrors {A : Type} (x : Exc A) : Prop :=
  forall e, x = inl e -> isError e = true.

Definition failsWithErrors {A : Type} (m : M A) : Prop :=
  forall s, throwsErrors (snd (m s)).

(** A client whose requests are answered or rejected with an instance of
    [Error], as the requests of Octokit are: it rejects with a
    [RequestError], which extends [Error]. *)
Definition rejectsWithErrors (octokit : Octokit) : Prop :=
  (forall commit_sha, throwsErrors (commits_pulls octokit commit_sha)) /\
  (forall pull_number, throwsErrors (pulls_get octokit pull_number)) /\
  throwsErrors (listTags octokit) /\
  (forall ref commit_sha, throwsErrors (createRef octokit ref commit_sha)).

(** The collaborators of a run of [main] throw instances of [Error] only:
    [github.getOctokit] returns such a client or throws an [Error]. *)
Definition errorsOnly (world : World) : Prop :=
  match getOctokit world (getInput world "github_token") with
  | inl e => isError e = true
  | inr octokit => rejectsWithErrors octokit
  end.

End Calls.

(* ================================================================== *)
(** ** Sample events *)
(* ================================================================== *)

Module Samples.

Import JS Action.

(** A client for a repository whose pull request [pull_number] is [pr];
    every other request is rejected. *)
Definition reviewing (pull_number : Z) (pr : PullRequest) : Octokit :=
  {| commits_pulls := fun _ => inl (Error "Not Found");
     pulls_get := fun n => if (n =? pull_number)%Z then inr pr
                           else inl (Error "Not Found");
     listTags := inl (Error "Not Found");
     createRef := fun _ _ => inl (Error "Not Found") |}.

(** An event on pull request [pull_number]. *)
Definition pullRequestEvent (pull_number : Z) (client : Exc Octokit) : World :=
  {| context := {| owner := "octo"; repo := "repo"; sha := "9e0d4c7";
                   payload_pull_request := Some pull_number |};
     getInput := fun name => if name =? "initial_tag" then "0.1.0" else "token";
     getOctokit := fun _ => client |}.

(** A client for a repository whose tags come in the pages [pages]. *)
Definition paged (pages : list (list Tag.t)) : Octokit :=
  {| commits_pulls := fun _ => inl (Error "Not Found");
     pulls_get := fun _ => inl (Error "Not Found");
     listTags := inr pages;
     createRef := fun _ _ => inr tt |}.

(** A repository in which the reference of every tag exists already. *)
Definition tagged (prs : list PullRequest) (tags : list string) : Octokit :=
  {| commits_pulls := fun _ => inr prs;
     pulls_get := fun _ => inl (Error "Not Found");
     listTags := inr [map Examples.tag tags];
     createRef := fun _ _ => inl (Error "Reference already exists") |}.

End Samples.

(* ================================================================== *)
(** ** Lists *)
(* ================================================================== *)

Module ListFacts.

Lemma existsb_filter_length {A : Type} (f : A -> bool) (l : list A) :
  existsb f l = negb (length (filter f l) =? 0)%nat.
Proof.
  induction l as [|x l IH]; simpl; [reflexivity|].
  destruct (f x); simpl; [reflexivity | exact IH].
Qed.

Lemma filter_idempotent {A : Type} (f : A -> bool) (l : list A) :
  filter f (filter f l) = filter f l.
Proof.
  induction l as [|x l IH]; simpl; [reflexivity|].
  destruct (f x) eqn:E; simpl; rewrite ?E, IH; reflexivity.
Qed.

Lemma existsb_app_false {A : Type} (f : A -> bool) (l1 l2 : list A) :
  existsb f l1 = false -> existsb f l2 = false -> existsb f (l1 ++ l2) = false.
Proof. intros H1 H2. now rewrite existsb_app, H1, H2. Qed.

Lemma concat_map_filter {A : Type} (f : A -> bool) (pages : list (list A)) :
  concat (map (fun data => filter f data) pages) = filter f (concat pages).
Proof.
  induction pages as [|page pages IH]; simpl; [reflexivity|].
  now rewrite IH, filter_app.
Qed.

End ListFacts.

(* ================================================================== *)
(** ** [Array.prototype.sort] *)
(* ================================================================== *)

Module SortFacts.

Import JS.

Section Sort.

Context {A : Type}.
Variable D : A -> Prop.
Variable cmp : A -> A -> Exc Z.

#[local] Abbreviation le := (notAfter cmp).

Hypothesis cmp_total : forall a b, D a -> D b -> exists c, cmp a b = inr c.

Lemma insert_permutation (x : A) (l : list A) :
  D x -> Forall D l ->
  exists r, insert cmp x l = inr r /\ Permutation (x :: l) r.
Proof.
  intros Dx. induction l as [|y l IH]; intros Dl; simpl.
  - exists [x]. split; [reflexivity | apply Permutation_refl].
  - inversion Dl as [|? ? Dy Dl']; subst.
    destruct (cmp_total x y Dx Dy) as [c Hc]. rewrite Hc. simpl.
    destruct (c <=? 0)%Z.
    + eexists. split; [reflexivity | apply Permutation_refl].
    + destruct (IH Dl') as [r [Hr Pr]]. rewrite Hr. simpl.
      exists (y :: r). split; [reflexivity|].
      apply perm_trans with (y :: x :: l); [apply perm_swap|].
      now apply perm_skip.
Qed.

Lemma sort_permutation (l : list A) :
  Forall D l -> exists r, sort cmp l = inr r /\ Permutation l r.
Proof.
  induction l as [|x l IH]; intros Dl; simpl.
  - exists []. split; [reflexivity | apply perm_nil].
  - inversion Dl as [|? ? Dx Dl']; subst.
    destruct (IH Dl') as [r [Hr Pr]]. rewrite Hr. simpl.
    assert (Dr : Forall D r).
    { rewrite Forall_forall in *. intros a Ha. apply Dl'.
      apply Permutation_in with r; [now apply Permutation_sym | exact Ha]. }
    destruct (insert_permutation x r Dx Dr) as [r' [Hr' Pr']].
    exists r'. split; [exact Hr'|].
    apply perm_trans with (x :: r); [now apply perm_skip | exact Pr'].
Qed.

Hypothesis cmp_antisym :
  forall a b c, D a -> D b -> cmp a b = inr c -> cmp b a = inr (- c)%Z.
Hypothesis le_trans :
  forall a b c, D a -> D b -> D c -> le a b -> le b c -> le a c.

Lemma le_refl (a : A) : D a -> le a a.
Proof.
  intros Da. destruct (cmp_total a a Da Da) as [c Hc].
  pose proof (cmp_antisym a a c Da Da Hc) as Hc'.
  rewrite Hc in Hc'. injection Hc' as Hc'. exists c. split; [exact Hc | lia].
Qed.

Lemma le_total (a b : A) : D a -> D b -> le a b \/ le b a.
Proof.
  intros Da Db. destruct (cmp_total a b Da Db) as [c Hc].
  destruct (Z.le_gt_cases c 0).
  - left. now exists c.
  - right. exists (- c)%Z. split; [now apply cmp_antisym | lia].
Qed.

#[local] Abbreviation headLowest := (JS.headLowest cmp).

Lemma insert_headLowest (x : A) (l r : list A) :
  D x -> Forall D l -> headLowest l -> insert cmp x l = inr r -> headLowest r.
Proof.
  intros Dx Dl Hl Hr. destruct l as [|y l]; simpl in Hr.
  - injection Hr as <-. simpl. constructor; [now apply le_refl | constructor].
  - inversion Dl as [|? ? Dy Dl']; subst.
    destruct (cmp_total x y Dx Dy) as [c Hc]. rewrite Hc in Hr. simpl in Hr.
    destruct (c <=? 0)%Z eqn:Ec.
    + injection Hr as <-. simpl in *.
      assert (Hxy : le x y) by (exists c; split; [exact Hc | lia]).
      constructor; [now apply le_refl|].
      rewrite Forall_forall in *. intros a Ha.
      apply le_trans with y; auto.
    + destruct (insert_permutation x l Dx Dl') as [r' [Hr' Pr']].
      rewrite Hr' in Hr. simpl in Hr. injection Hr as <-. simpl in *.
      assert (Hyx : le y x).
      { exists (- c)%Z. split; [now apply cmp_antisym | lia]. }
      inversion Hl as [|? ? Hyy Hyl]; subst.
      constructor; [exact Hyy|].
      rewrite Forall_forall in *. intros a Ha.
      apply Permutation_in with (l' := x :: l) in Ha;
        [| now apply Permutation_sym].
      destruct Ha as [<-|Ha]; auto.
Qed.

Lemma sort_headLowest (l r : list A) :
  Forall D l -> sort cmp l = inr r -> headLowest r.
Proof.
  revert r. induction l as [|x l IH]; intros r Dl Hr; simpl in Hr.
  - injection Hr as <-. exact I.
  - inversion Dl as [|? ? Dx Dl']; subst.
    destruct (sort_permutation l Dl') as [r0 [Hr0 Pr0]].
    rewrite Hr0 in Hr. simpl in Hr.
    apply insert_headLowest with x r0; auto.
    rewrite Forall_forall in *. intros a Ha. apply Dl'.
    apply Permutation_in with r0; [now apply Permutation_sym | exact Ha].
Qed.

(** The element [sort] puts first is not placed after any element of the
    input. *)
Lemma sort_head_lowest (l : list A) (h : A) (t : list A) :
  Forall D l -> sort cmp l = inr (h :: t) -> In h l /\ Forall (le h) l.
Proof.
  intros Dl Hr. pose proof (sort_headLowest l (h :: t) Dl Hr) as Hlow.
  destruct (sort_permutation l Dl) as [r [Hr' Pr]].
  rewrite Hr in Hr'. injection Hr' as <-. split.
  - apply Permutation_in with (h :: t); [now apply Permutation_sym | now left].
  - simpl in Hlow. rewrite Forall_forall in *. intros a Ha. apply Hlow.
    now apply Permutation_in with l.
Qed.

(** The sort is stable at the front: the element put first is the first of
    the input that is not placed after any other, and every element before
    it in the input is placed after it. *)
Lemma sort_head_first (l : list A) (h : A) (t : list A) :
  Forall D l -> sort cmp l = inr (h :: t) ->
  exists before rest,
    l = (before ++ h :: rest)%list /\
    Forall (fun y => exists c, cmp y h = inr c /\ (0 < c)%Z) before /\
    Forall (le h) rest.
Proof.
  revert h t. induction l as [|x l IH]; intros h t Dl Hr; simpl in Hr.
  - discriminate.
  - inversion Dl as [|? ? Dx Dl']; subst.
    destruct (sort_permutation l Dl') as [r [Hr0 Pr]].
    rewrite Hr0 in Hr. simpl in Hr.
    destruct r as [|y r]; simpl in Hr.
    + injection Hr as <- <-.
      apply Permutation_sym, Permutation_nil in Pr. subst l.
      exists [], []. repeat split; constructor.
    + assert (Dy : D y).
      { rewrite Forall_forall in Dl'. apply Dl'.
        apply Permutation_in with (y :: r);
          [now apply Permutation_sym | now left]. }
      destruct (sort_head_lowest l y r Dl' Hr0) as [_ Hlow].
      destruct (cmp_total x y Dx Dy) as [c Hc]. rewrite Hc in Hr. simpl in Hr.
      destruct (c <=? 0)%Z eqn:Ec.
      * injection Hr as <- <-. exists [], l. repeat split; [constructor|].
        assert (Hxy : le x y)
          by (exists c; split; [exact Hc | now apply Z.leb_le]).
        rewrite Forall_forall in *. intros a Ha.
        apply le_trans with y; auto.
      * destruct (insert cmp x r) as [e|r'] eqn:Hins; simpl in Hr;
          [discriminate|].
        injection Hr as <- <-.
        destruct (IH y r Dl' Hr0) as (before & rest & -> & Hbefore & Hrest).
        exists (x :: before), rest. repeat split; [|exact Hrest].
        constructor; [|exact Hbefore].
        exists c. split; [exact Hc|]. apply Z.leb_gt in Ec. lia.
Qed.


End Sort.

(** Sorting records by a key is sorting the keys. *)
Lemma insert_map {A B : Type} (f : A -> B) (cmp : B -> B -> Exc Z)
  (x : A) (l : list A) :
  insert cmp (f x) (map f l) =
  match insert (fun a b => cmp (f a) (f b)) x l with
  | inl e => inl e
  | inr r => inr (map f r)
  end.
Proof.
  induction l as [|y l IH]; simpl; [reflexivity|].
  destruct (cmp (f x) (f y)) as [e|c]; simpl; [reflexivity|].
  destruct (c <=? 0)%Z; [reflexivity|].
  rewrite IH. destruct (insert _ x l); reflexivity.
Qed.

Lemma sort_map {A B : Type} (f : A -> B) (cmp : B -> B -> Exc Z) (l : list A) :
  sort cmp (map f l) =
  match sort (fun a b => cmp (f a) (f b)) l with
  | inl e => inl e
  | inr r => inr (map f r)
  end.
Proof.
  induction l as [|x l IH]; simpl; [reflexivity|].
  rewrite IH. destruct (sort _ l) as [e|r]; simpl; [reflexivity|].
  apply insert_map.
Qed.

End SortFacts.

(* ================================================================== *)
(** ** Consistent comparators *)
(* ================================================================== *)

Module OrderFacts.

Import JS.

#[local] Open Scope Z_scope.

Section Generic.

Context {A : Type}.
Variable D : A -> Prop.

Lemma consistent_eq_r (c : A -> A -> Z) (a b d : A) :
  Consistent D c -> D a -> D b -> D d -> c b d = 0 -> c a b = c a d.
Proof.
  intros L Da Db Dd H.
  pose proof (consistent_eq D c L b d a Db Dd Da H) as E.
  rewrite (consistent_antisym D c L a b Da Db) in E.
  rewrite (consistent_antisym D c L a d Da Dd) in E. lia.
Qed.

(** "Not after" is transitive for a consistent comparator. *)
Lemma consistent_le_trans (c : A -> A -> Z) (a b d : A) :
  Consistent D c -> D a -> D b -> D d -> c a b <= 0 -> c b d <= 0 -> c a d <= 0.
Proof.
  intros L Da Db Dd Hab Hbd.
  destruct (consistent_range D c L a b Da Db) as [Eab|[Eab|Eab]]; [| |lia].
  - destruct (consistent_range D c L b d Db Dd) as [Ebd|[Ebd|Ebd]]; [| |lia].
    + rewrite (consistent_lt D c L a b d Da Db Dd Eab Ebd). lia.
    + rewrite <- (consistent_eq_r c a b d L Da Db Dd Ebd). lia.
  - rewrite (consistent_eq D c L a b d Da Db Dd Eab). exact Hbd.
Qed.

(** [c1(a, b) || c2(a, b)]: the lexicographic combination. *)
Lemma consistent_orElse (c1 c2 : A -> A -> Z) :
  Consistent D c1 -> Consistent D c2 ->
  Consistent D (fun a b => NodeSemver.orElse (c1 a b) (c2 a b)).
Proof.
  intros L1 L2. unfold NodeSemver.orElse. constructor.
  - intros a b Da Db.
    destruct (consistent_range D c1 L1 a b Da Db) as [E|[E|E]]; rewrite E; simpl;
      auto. exact (consistent_range D c2 L2 a b Da Db).
  - intros a Da. rewrite (consistent_refl D c1 L1 a Da). simpl.
    exact (consistent_refl D c2 L2 a Da).
  - intros a b Da Db.
    rewrite (consistent_antisym D c1 L1 a b Da Db),
      (consistent_antisym D c2 L2 a b Da Db).
    destruct (consistent_range D c1 L1 a b Da Db) as [E|[E|E]]; rewrite E;
      reflexivity.
  - intros a b d Da Db Dd H.
    destruct (c1 a b =? 0) eqn:E1; [|apply Z.eqb_neq in E1; lia].
    apply Z.eqb_eq in E1.
    rewrite (consistent_eq D c1 L1 a b d Da Db Dd E1).
    rewrite (consistent_eq D c2 L2 a b d Da Db Dd H). reflexivity.
  - intros a b d Da Db Dd Hab Hbd.
    destruct (c1 a b =? 0) eqn:E1; destruct (c1 b d =? 0) eqn:E2;
      rewrite ?Z.eqb_eq, ?Z.eqb_neq in *.
    + rewrite (consistent_eq D c1 L1 a b d Da Db Dd E1), E2. simpl.
      exact (consistent_lt D c2 L2 a b d Da Db Dd Hab Hbd).
    + rewrite (consistent_eq D c1 L1 a b d Da Db Dd E1), Hbd. reflexivity.
    + rewrite <- (consistent_eq_r c1 a b d L1 Da Db Dd E2), Hab. reflexivity.
    + rewrite (consistent_lt D c1 L1 a b d Da Db Dd Hab Hbd). reflexivity.
Qed.

End Generic.

(** A comparator of keys is one of the records that carry them. *)
Lemma consistent_on_key {A B : Type} (f : A -> B) (DA : A -> Prop)
  (DB : B -> Prop) (c : B -> B -> Z) :
  (forall a, DA a -> DB (f a)) ->
  Consistent DB c -> Consistent DA (fun a b => c (f a) (f b)).
Proof.
  intros Hf L. constructor.
  - intros a b Da Db. apply (consistent_range DB c L); auto.
  - intros a Da. apply (consistent_refl DB c L); auto.
  - intros a b Da Db. apply (consistent_antisym DB c L); auto.
  - intros a b d Da Db Dd. apply (consistent_eq DB c L); auto.
  - intros a b d Da Db Dd. apply (consistent_lt DB c L); auto.
Qed.

End OrderFacts.

(* ================================================================== *)
(** ** The version order of the package *)
(* ================================================================== *)

Module SemverOrderFacts.

Import JS NodeSemver OrderFacts.

#[local] Open Scope Z_scope.

(** Decides the tests on numbers that a goal or a hypothesis branches on. *)
Ltac number_tests :=
  repeat match goal with
    | |- context [(?x =? ?y)%N] => destruct (N.eqb_spec x y)
    | H : context [(?x =? ?y)%N] |- _ => destruct (N.eqb_spec x y)
    | |- context [(?x <? ?y)%N] => destruct (N.ltb_spec x y)
    | H : context [(?x <? ?y)%N] |- _ => destruct (N.ltb_spec x y)
    end.

Lemma consistent_numbers :
  Consistent (fun _ : N => True)
    (fun x y => compareIdentifiers (INum x) (INum y)).
Proof.
  constructor; unfold compareIdentifiers; simpl; intros;
    number_tests; try lia; auto.
Qed.

(** [a < b] on strings, as the last two branches of [compareIdentifiers]
    read it. *)
Lemma ltb_irrefl (s : string) : String.ltb s s = false.
Proof.
  unfold String.ltb.
  assert (E : String.compare s s = Eq) by now apply String_as_OT.cmp_eq.
  now rewrite E.
Qed.

Lemma ltb_flip (s t : string) :
  s <> t -> String.ltb t s = negb (String.ltb s t).
Proof.
  intros Hne. unfold String.ltb. rewrite (String.compare_antisym t s).
  destruct (String.compare s t) eqn:E; try reflexivity.
  apply String.compare_eq_iff in E. contradiction.
Qed.

Lemma ltb_trans (s t u : string) :
  String.ltb s t = true -> String.ltb t u = true -> String.ltb s u = true.
Proof.
  unfold String.ltb. intros H1 H2.
  destruct (String.compare s t) eqn:E1; try discriminate.
  destruct (String.compare t u) eqn:E2; try discriminate.
  apply String_as_OT.cmp_lt in E1, E2.
  pose proof (String_as_OT.lt_trans _ _ _ E1 E2) as E3.
  apply String_as_OT.cmp_lt in E3. unfold String_as_OT.cmp in E3.
  now rewrite E3.
Qed.

Lemma strictEq_exact (a b : Identifier) :
  strictEq a b = true <-> a = b.
Proof.
  destruct a as [x|s], b as [y|t]; simpl; split; intros H; try discriminate.
  - apply N.eqb_eq in H. now subst.
  - injection H as ->. apply N.eqb_refl.
  - apply String.eqb_eq in H. now subst.
  - injection H as ->. apply String.eqb_refl.
Qed.

(** The comparison of two identifiers that are read exactly: numbers by
    value, a number before a string, strings by code units. *)
Lemma compareIdentifiers_exact (a b : Identifier) :
  exactIdentifier a = true -> exactIdentifier b = true ->
  compareIdentifiers a b =
  match a, b with
  | INum x, INum y =>
      if (x =? y)%N then 0 else if (x <? y)%N then -1 else 1
  | INum _, IStr _ => -1
  | IStr _, INum _ => 1
  | IStr s, IStr t =>
      if (s =? t)%string then 0 else if String.ltb s t then -1 else 1
  end.
Proof.
  destruct a as [x|s], b as [y|t]; unfold compareIdentifiers; simpl;
    intros Ha Hb; try reflexivity.
  - apply negb_true_iff in Hb. rewrite Hb. reflexivity.
  - apply negb_true_iff in Ha. rewrite Ha. reflexivity.
  - apply negb_true_iff in Ha, Hb. rewrite Ha, Hb. reflexivity.
Qed.

Lemma consistent_identifiers :
  Consistent (fun a => exactIdentifier a = true) compareIdentifiers.
Proof.
  constructor.
  - intros a b Da Db. rewrite (compareIdentifiers_exact a b Da Db).
    destruct a, b; auto.
    + destruct (n =? n0)%N; auto. destruct (n <? n0)%N; auto.
    + destruct (s =? s0)%string; auto. destruct (String.ltb s s0); auto.
  - intros a Da. rewrite (compareIdentifiers_exact a a Da Da).
    destruct a; [now rewrite N.eqb_refl | now rewrite String.eqb_refl].
  - intros a b Da Db. rewrite (compareIdentifiers_exact a b Da Db),
      (compareIdentifiers_exact b a Db Da).
    destruct a as [x|s], b as [y|t]; try reflexivity.
    + number_tests; lia.
    + rewrite (String.eqb_sym t s).
      destruct (String.eqb_spec s t) as [->|Hne]; [reflexivity|].
      rewrite (ltb_flip s t Hne). destruct (String.ltb s t); reflexivity.
  - intros a b d Da Db Dd. rewrite (compareIdentifiers_exact a b Da Db),
      (compareIdentifiers_exact a d Da Dd), (compareIdentifiers_exact b d Db Dd).
    destruct a as [x|s], b as [y|t]; try discriminate.
    + destruct (N.eqb_spec x y) as [->|Hne]; [reflexivity|].
      destruct (x <? y)%N; discriminate.
    + destruct (String.eqb_spec s t) as [->|Hne]; [reflexivity|].
      destruct (String.ltb s t); discriminate.
  - intros a b d Da Db Dd. rewrite (compareIdentifiers_exact a b Da Db),
      (compareIdentifiers_exact a d Da Dd), (compareIdentifiers_exact b d Db Dd).
    destruct a as [x|s], b as [y|t], d as [z|u]; try discriminate;
      try reflexivity.
    + number_tests; intros; try discriminate; try reflexivity; lia.
    + destruct (String.eqb_spec s t) as [->|Hst]; [discriminate|].
      destruct (String.eqb_spec t u) as [->|Htu]; [discriminate|].
      destruct (String.ltb s t) eqn:Lst; [|discriminate].
      destruct (String.ltb t u) eqn:Ltu; [|discriminate].
      intros _ _. rewrite (ltb_trans s t u Lst Ltu).
      destruct (String.eqb_spec s u) as [->|Hsu]; [|reflexivity].
      rewrite (ltb_flip t u Htu), Ltu in Lst. discriminate.
Qed.

Lemma compareIdentifiers_zero (a b : Identifier) :
  exactIdentifier a = true -> exactIdentifier b = true ->
  compareIdentifiers a b = 0 -> a = b.
Proof.
  intros Da Db. rewrite (compareIdentifiers_exact a b Da Db).
  destruct a as [x|s], b as [y|t]; try discriminate.
  - destruct (N.eqb_spec x y) as [->|Hne]; [reflexivity|].
    destruct (x <? y)%N; discriminate.
  - destruct (String.eqb_spec s t) as [->|Hne]; [reflexivity|].
    destruct (String.ltb s t); discriminate.
Qed.


(** The loop of [comparePre] on pre-releases that are read exactly. *)
Lemma comparePreLoop_zero (a b : list Identifier) :
  forallb exactIdentifier a = true -> forallb exactIdentifier b = true ->
  comparePreLoop a b = 0 -> a = b.
Proof.
  revert b. induction a as [|x a IH]; intros [|y b]; simpl; try discriminate;
    try reflexivity.
  intros Da Db. apply andb_prop in Da, Db.
  destruct Da as [Dx Da], Db as [Dy Db].
  destruct (strictEq x y) eqn:E.
  - apply strictEq_exact in E. subst. intros H. f_equal. now apply IH.
  - intros H. apply (compareIdentifiers_zero x y Dx Dy) in H.
    apply strictEq_exact in H. congruence.
Qed.

Lemma strictEq_refl (a : Identifier) : strictEq a a = true.
Proof. now apply strictEq_exact. Qed.

Lemma strictEq_sym (a b : Identifier) : strictEq a b = strictEq b a.
Proof.
  destruct (strictEq a b) eqn:E.
  - apply strictEq_exact in E. subst. symmetry. apply strictEq_refl.
  - destruct (strictEq b a) eqn:E'; [|reflexivity].
    apply strictEq_exact in E'. subst. now rewrite strictEq_refl in E.
Qed.

Lemma strictEq_false (a b : Identifier) : a <> b -> strictEq a b = false.
Proof.
  intros Hne. destruct (strictEq a b) eqn:E; [|reflexivity].
  apply strictEq_exact in E. contradiction.
Qed.

Lemma consistent_comparePreLoop :
  Consistent (fun l => forallb exactIdentifier l = true) comparePreLoop.
Proof.
  pose proof consistent_identifiers as L.
  constructor.
  - intros a. induction a as [|x a IH]; intros [|y b] Da Db; simpl; auto.
    simpl in Da, Db. apply andb_prop in Da, Db.
    destruct Da as [Dx Da], Db as [Dy Db].
    destruct (strictEq x y); [now apply IH|].
    now apply (consistent_range _ _ L).
  - intros a. induction a as [|x a IH]; intros Da; simpl; [reflexivity|].
    simpl in Da. apply andb_prop in Da. destruct Da as [Dx Da].
    rewrite strictEq_refl. now apply IH.
  - intros a. induction a as [|x a IH]; intros [|y b] Da Db; simpl;
      try reflexivity.
    simpl in Da, Db. apply andb_prop in Da, Db.
    destruct Da as [Dx Da], Db as [Dy Db].
    rewrite (strictEq_sym y x). destruct (strictEq x y); [now apply IH|].
    now apply (consistent_antisym _ _ L).
  - intros a b d Da Db Dd H.
    now rewrite (comparePreLoop_zero a b Da Db H).
  - intros a. induction a as [|x a IH]; intros [|y b] [|z d] Da Db Dd; simpl;
      try discriminate; try reflexivity.
    simpl in Da, Db, Dd. apply andb_prop in Da, Db, Dd.
    destruct Da as [Dx Da], Db as [Dy Db], Dd as [Dz Dd].
    destruct (strictEq x y) eqn:Exy; destruct (strictEq y z) eqn:Eyz.
    + apply strictEq_exact in Exy, Eyz. subst. rewrite strictEq_refl.
      now apply IH.
    + apply strictEq_exact in Exy. subst. rewrite Eyz. auto.
    + apply strictEq_exact in Eyz. subst. rewrite Exy. auto.
    + intros Hxy Hyz.
      pose proof (consistent_lt _ _ L x y z Dx Dy Dz Hxy Hyz) as Hxz.
      destruct (strictEq x z) eqn:Exz; [|exact Hxz].
      apply strictEq_exact in Exz. subst.
      rewrite (consistent_refl _ _ L z Dz) in Hxz. discriminate.
Qed.

(** [comparePre] as a function of the two pre-releases. *)
Lemma consistent_comparePre :
  Consistent (fun v => exactVersion v = true) comparePre.
Proof.
  pose proof consistent_comparePreLoop as L.
  unfold exactVersion, comparePre. constructor.
  - intros a b Da Db.
    destruct (prerelease a) as [|x pa] eqn:Ea, (prerelease b) as [|y pb] eqn:Eb;
      auto.
    now apply (consistent_range _ _ L).
  - intros a Da. destruct (prerelease a) as [|x pa] eqn:Ea; [reflexivity|].
    now apply (consistent_refl _ _ L).
  - intros a b Da Db.
    destruct (prerelease a) as [|x pa] eqn:Ea, (prerelease b) as [|y pb] eqn:Eb;
      try reflexivity.
    now apply (consistent_antisym _ _ L).
  - intros a b d Da Db Dd.
    destruct (prerelease a) as [|x pa] eqn:Ea, (prerelease b) as [|y pb] eqn:Eb;
      try discriminate; [reflexivity|].
    intros H. apply (comparePreLoop_zero _ _ Da Db) in H.
    injection H as -> ->. reflexivity.
  - intros a b d Da Db Dd.
    destruct (prerelease a) as [|x pa] eqn:Ea, (prerelease b) as [|y pb] eqn:Eb,
      (prerelease d) as [|z pd] eqn:Ed; try discriminate; try reflexivity.
    now apply (consistent_lt _ _ L).
Qed.

Lemma consistent_compareMain :
  Consistent (fun v => exactVersion v = true) compareMain.
Proof.
  unfold compareMain.
  apply consistent_orElse; [|apply consistent_orElse].
  - apply (consistent_on_key major _ (fun _ => True)
             (fun x y => compareIdentifiers (INum x) (INum y))); auto.
    apply consistent_numbers.
  - apply (consistent_on_key minor _ (fun _ => True)
             (fun x y => compareIdentifiers (INum x) (INum y))); auto.
    apply consistent_numbers.
  - apply (consistent_on_key patch _ (fun _ => True)
             (fun x y => compareIdentifiers (INum x) (INum y))); auto.
    apply consistent_numbers.
Qed.

(** [compareMain(other) || comparePre(other)] *)
Lemma consistent_main_pre :
  Consistent (fun v => exactVersion v = true)
    (fun a b => orElse (compareMain a b) (comparePre a b)).
Proof.
  apply consistent_orElse;
    [apply consistent_compareMain | apply consistent_comparePre].
Qed.

End SemverOrderFacts.

(* ================================================================== *)
(** ** Numbers and their decimal notation *)
(* ================================================================== *)

Module NumberFacts.

Import JS NodeSemver.

#[local] Open Scope N_scope.

Lemma toDouble_exact (n : N) : n < 2 ^ 53 -> toDouble n = n.
Proof.
  intros H. unfold toDouble. apply N.ltb_lt in H. now rewrite H.
Qed.

(** Rounding never takes an integer of 2^53 or more below 2^53. *)
Lemma toDouble_large (n : N) : 2 ^ 53 <= n -> 2 ^ 53 <= toDouble n.
Proof.
  intros H. unfold toDouble.
  destruct (N.ltb_spec n (2 ^ 53)) as [Hlt|_]; [lia|].
  assert (Hpos : 0 < n) by (assert (0 < 2 ^ 53) by reflexivity; lia).
  assert (Hlog : 53 <= N.log2 n).
  { change 53 with (N.log2 (2 ^ 53)). now apply N.log2_le_mono. }
  destruct (N.log2_spec n Hpos) as [Hlo _].
  set (e := N.log2 n - 52) in *.
  assert (He : N.log2 n = 52 + e) by (unfold e; lia).
  set (q := N.shiftr n e).
  assert (Hq : 2 ^ 52 <= q).
  { unfold q. rewrite N.shiftr_div_pow2.
    apply N.div_le_lower_bound; [apply N.pow_nonzero; discriminate|].
    rewrite N.mul_comm, <- N.pow_add_r, <- He. exact Hlo. }
  match goal with |- _ <= N.shiftl ?x e => set (q' := x) end.
  assert (Hq' : q <= q').
  { unfold q'. destruct (_ || _)%bool; lia. }
  rewrite N.shiftl_mul_pow2.
  apply N.le_trans with (2 ^ 52 * 2 ^ e).
  - rewrite <- N.pow_add_r, <- He.
    apply N.le_trans with (2 ^ 53); [reflexivity|].
    apply N.pow_le_mono_r; [discriminate | exact Hlog].
  - apply N.mul_le_mono_r. lia.
Qed.

Lemma toDouble_bounded (n : N) :
  toDouble n <= MAX_SAFE_INTEGER -> toDouble n = n.
Proof.
  intros H. apply toDouble_exact.
  destruct (N.lt_ge_cases n (2 ^ 53)) as [Hlt|Hge]; [exact Hlt|].
  apply toDouble_large in Hge. unfold MAX_SAFE_INTEGER in H.
  assert (E : 2 ^ 53 = 9007199254740992) by reflexivity. lia.
Qed.

(** A digit is one of the ten characters [uint_of_char] reads. *)
Lemma isDigit_uint_of_char (c : ascii) (d : Decimal.uint) :
  isDigit c = true -> exists d', uint_of_char c (Some d) = Some d'.
Proof.
  destruct c as [[|] [|] [|] [|] [|] [|] [|] [|]]; intros H;
    try discriminate H; eexists; reflexivity.
Qed.

Lemma digits_uint_of_string (s : string) :
  allChars isDigit s = true -> exists d, NilEmpty.uint_of_string s = Some d.
Proof.
  induction s as [|c s IH]; simpl; intros H.
  - now exists Decimal.Nil.
  - apply andb_prop in H. destruct H as [Hc Hs].
    destruct (IH Hs) as [d Hd]. rewrite Hd.
    exact (isDigit_uint_of_char c d Hc).
Qed.

(** The digits of a numeric identifier have no leading zero. *)
Lemma numericIdentifier_normal (s : string) (d : Decimal.uint) :
  isNumericIdentifier s = true -> NilEmpty.uint_of_string s = Some d ->
  Decimal.unorm d = d.
Proof.
  destruct s as [|c s]; simpl; [discriminate|].
  destruct (Ascii.eqb_spec c "0") as [->|Hc].
  - intros Hs. apply String.eqb_eq in Hs. subst. simpl.
    intros [= <-]. reflexivity.
  - intros H. apply andb_prop in H. destruct H as [Hd Hs].
    destruct (NilEmpty.uint_of_string s) as [d'|] eqn:E; [|discriminate].
    revert Hd Hc.
    destruct c as [[|] [|] [|] [|] [|] [|] [|] [|]]; intros Hd Hc;
      try discriminate Hd; try (now elim Hc); simpl; intros [= <-];
      reflexivity.
Qed.

(** Printing the value of a numeric identifier gives the identifier back. *)
Lemma toString_Number (s : string) :
  isNumericIdentifier s = true -> Number s <= MAX_SAFE_INTEGER ->
  toString (Number s) = s.
Proof.
  intros Hs Hmax.
  assert (Hdigits : allChars isDigit s = true).
  { destruct s as [|c s]; simpl in *; [discriminate|].
    destruct (Ascii.eqb_spec c "0") as [->|Hc].
    - apply String.eqb_eq in Hs. now subst.
    - exact Hs. }
  destruct (digits_uint_of_string s Hdigits) as [d Hd].
  unfold Number in *. rewrite Hd in *.
  rewrite (toDouble_bounded _ Hmax). unfold toString.
  rewrite DecimalN.Unsigned.to_of, (numericIdentifier_normal s d Hs Hd).
  now apply NilEmpty.sus.
Qed.

(** Reading the digits a number prints as gives the number back. *)
Lemma Number_toString (n : N) : n < 2 ^ 53 -> Number (toString n) = n.
Proof.
  intros H. unfold Number, toString.
  rewrite NilEmpty.usu, DecimalN.Unsigned.of_to. now apply toDouble_exact.
Qed.

End NumberFacts.

(* ================================================================== *)
(** ** Parsing and printing versions *)
(* ================================================================== *)

Module ParseFacts.

Import JS NodeSemver NumberFacts.

Lemma split_nonempty (sep : ascii) (s : string) : split sep s <> [].
Proof.
  destruct s as [|c r]; simpl; [discriminate|].
  destruct (Ascii.eqb c sep); [discriminate|].
  destruct (split sep r); discriminate.
Qed.

Lemma join_cons (sep x : string) (y : string) (ys : list string) :
  join sep (x :: y :: ys) = x ++ sep ++ join sep (y :: ys).
Proof. reflexivity. Qed.

(** [s.split(sep).join(sep)] is [s]. *)
Lemma join_split (sep : ascii) (s : string) :
  join (String sep EmptyString) (split sep s) = s.
Proof.
  induction s as [|c r IH]; simpl; [reflexivity|].
  destruct (Ascii.eqb_spec c sep) as [->|Hc].
  - destruct (split sep r) as [|x xs] eqn:E; [now elim (split_nonempty sep r)|].
    rewrite join_cons, IH. reflexivity.
  - destruct (split sep r) as [|x xs] eqn:E; [now elim (split_nonempty sep r)|].
    destruct xs as [|y ys].
    + simpl in *. now rewrite IH.
    + rewrite join_cons in IH. rewrite join_cons. simpl in IH |- *.
      now rewrite IH.
Qed.

Lemma splitFirst_some (sep : ascii) (s a b : string) :
  splitFirst sep s = (a, Some b) -> s = a ++ String sep b.
Proof.
  revert a. induction s as [|c r IH]; simpl; intros a; [discriminate|].
  destruct (Ascii.eqb_spec c sep) as [->|Hc].
  - intros [= <- <-]. reflexivity.
  - destruct (splitFirst sep r) as [a' b'] eqn:E. intros [= <- ->].
    simpl. f_equal. now apply IH.
Qed.

Lemma splitFirst_none (sep : ascii) (s a : string) :
  splitFirst sep s = (a, None) -> s = a.
Proof.
  revert a. induction s as [|c r IH]; simpl; intros a.
  - now intros [= <-].
  - destruct (Ascii.eqb c sep); [discriminate|].
    destruct (splitFirst sep r) as [a' b'] eqn:E. intros [= <- ->].
    f_equal. now apply IH.
Qed.

(** What [new SemVer(version)] has established when it returns. *)
Lemma new_returns (version : string) (v : SemVer) :
  new version = inr v ->
  exists main g4 a b c,
    (String.length version <= MAX_LENGTH)%nat /\
    splitFirst "-" (coreVersion version) = (main, g4) /\
    split "." main = [a; b; c] /\
    isNumericIdentifier a = true /\ isNumericIdentifier b = true /\
    isNumericIdentifier c = true /\
    match g4 with
    | None => True
    | Some p => forallb isPrereleaseIdentifier (split "." p) = true
    end /\
    (Number a <= MAX_SAFE_INTEGER)%N /\ (Number b <= MAX_SAFE_INTEGER)%N /\
    (Number c <= MAX_SAFE_INTEGER)%N /\
    major v = Number a /\ minor v = Number b /\ patch v = Number c /\
    prerelease v = match g4 with
                   | None => []
                   | Some p => map prereleaseIdentifier (split "." p)
                   end.
Proof.
  unfold new, coreVersion, matchFULL.
  destruct (Nat.ltb_spec MAX_LENGTH (String.length version)) as [|Hlen];
    [discriminate|].
  destruct (splitFirst "+" (withoutV (trim version))) as [mp g5] eqn:E5.
  simpl fst.
  destruct (splitFirst "-" mp) as [main g4] eqn:E4.
  destruct (split "." main) as [|a [|b [|c [|d l]]]] eqn:E; try discriminate.
  destruct (isNumericIdentifier a) eqn:Ha; [|discriminate].
  destruct (isNumericIdentifier b) eqn:Hb; [|discriminate].
  destruct (isNumericIdentifier c) eqn:Hc; [|discriminate].
  simpl andb.
  destruct (match g4 with
            | Some p => forallb isPrereleaseIdentifier (split "." p)
            | None => true
            end) eqn:Hp; [|discriminate].
  simpl andb.
  destruct (match g5 with
            | Some b0 => forallb isBuildIdentifier (split "." b0)
            | None => true
            end) eqn:Hb5; [|discriminate].
  simpl.
  destruct (N.ltb_spec MAX_SAFE_INTEGER (Number a)); [discriminate|].
  destruct (N.ltb_spec MAX_SAFE_INTEGER (Number b)); [discriminate|].
  destruct (N.ltb_spec MAX_SAFE_INTEGER (Number c)); [discriminate|].
  intros [= <-]. exists main, g4, a, b, c. simpl.
  repeat split; try assumption; try reflexivity.
  destruct g4; [exact Hp | exact I].
Qed.

Lemma digits_not_nonNumeric (s : string) :
  allChars isDigit s = true -> isNonNumericIdentifier s = false.
Proof.
  induction s as [|c s IH]; simpl; [reflexivity|].
  intros H. apply andb_prop in H. destruct H as [Hc Hs].
  rewrite Hc. now apply IH.
Qed.

(** Printing a pre-release identifier of a version gives its text back. *)
Lemma identifierString_prereleaseIdentifier (id : string) :
  isPrereleaseIdentifier id = true ->
  identifierString (prereleaseIdentifier id) = id.
Proof.
  unfold prereleaseIdentifier, isPrereleaseIdentifier, isNumeric.
  intros Hid.
  destruct (negb (id =? "") && allChars isDigit id) eqn:Hnum; [|reflexivity].
  destruct (N.ltb_spec (Number id) MAX_SAFE_INTEGER) as [Hlt|]; [|reflexivity].
  simpl. apply andb_prop in Hnum. destruct Hnum as [_ Hdigits].
  rewrite (digits_not_nonNumeric id Hdigits), orb_false_r in Hid.
  apply toString_Number; [exact Hid | lia].
Qed.

Lemma map_identifierString (ids : list string) :
  forallb isPrereleaseIdentifier ids = true ->
  map identifierString (map prereleaseIdentifier ids) = ids.
Proof.
  induction ids as [|id ids IH]; simpl; [reflexivity|].
  intros H. apply andb_prop in H. destruct H as [Hid Hids].
  now rewrite identifierString_prereleaseIdentifier, IH.
Qed.

(** [format] prints a version as its text reads, white space, leading [v]
    and build metadata apart. *)
Lemma format_new (version : string) (v : SemVer) :
  new version = inr v -> format v = coreVersion version.
Proof.
  intros Hnew.
  destruct (new_returns version v Hnew)
    as (main & g4 & a & b & c & _ & E4 & E & Ha & Hb & Hc & Hp
        & Ma & Mb & Mc & Emajor & Eminor & Epatch & Epre).
  unfold format. rewrite Epre, Emajor, Eminor, Epatch.
  rewrite !toString_Number by assumption.
  assert (Emain : main = a ++ "." ++ b ++ "." ++ c).
  { rewrite <- (join_split "." main), E. reflexivity. }
  destruct g4 as [p|].
  - apply splitFirst_some in E4.
    destruct (map prereleaseIdentifier (split "." p)) as [|x xs] eqn:Emap.
    + destruct (split "." p) eqn:Ep; [now elim (split_nonempty "." p)|].
      discriminate.
    + rewrite <- Emap, (map_identifierString _ Hp), join_split.
      rewrite E4, Emain. reflexivity.
  - apply splitFirst_none in E4. rewrite E4, Emain. reflexivity.
Qed.

(** What [compare] reads of a version is determined by that text. *)
Lemma new_coreVersion (s s' : string) (v v' : SemVer) :
  new s = inr v -> new s' = inr v' -> coreVersion s = coreVersion s' ->
  major v = major v' /\ minor v = minor v' /\ patch v = patch v' /\
  prerelease v = prerelease v'.
Proof.
  intros Hnew Hnew' Hcore.
  destruct (new_returns s v Hnew)
    as (main & g4 & a & b & c & _ & E4 & E & _ & _ & _ & _
        & _ & _ & _ & Emajor & Eminor & Epatch & Epre).
  destruct (new_returns s' v' Hnew')
    as (main' & g4' & a' & b' & c' & _ & E4' & E' & _ & _ & _ & _
        & _ & _ & _ & Emajor' & Eminor' & Epatch' & Epre').
  rewrite Emajor, Eminor, Epatch, Epre, Emajor', Eminor', Epatch', Epre'.
  rewrite Hcore, E4' in E4. injection E4 as <- <-.
  rewrite E' in E. injection E as <- <- <-. auto.
Qed.

End ParseFacts.

(* ================================================================== *)
(** ** [semver.compare] on version strings *)
(* ================================================================== *)

Module CompareFacts.

Import JS NodeSemver OrderFacts SemverOrderFacts ParseFacts.

#[local] Open Scope Z_scope.

Lemma valid_new (s : string) :
  NodeSemver.valid s <> None <-> exists v, new s = inr v.
Proof.
  unfold NodeSemver.valid. destruct (new s) as [e|v]; split.
  - intros H. now elim H.
  - intros [v H]. discriminate.
  - intros _. now exists v.
  - discriminate.
Qed.

Lemma exactTag_new (s : string) (v : SemVer) :
  new s = inr v -> exactTag s = true -> exactVersion v = true.
Proof. unfold exactTag. now intros ->. Qed.

Lemma compare_new (a b : string) (va vb : SemVer) :
  new a = inr va -> new b = inr vb ->
  NodeSemver.compare a b = inr (compareSemVer va vb).
Proof. unfold NodeSemver.compare. now intros -> ->. Qed.

(** [compare] returns on two versions and throws on anything else. *)
Lemma compare_total (a b : string) :
  NodeSemver.valid a <> None -> NodeSemver.valid b <> None ->
  exists c, NodeSemver.compare a b = inr c.
Proof.
  intros Ha Hb. apply valid_new in Ha, Hb.
  destruct Ha as [va Ha], Hb as [vb Hb].
  exists (compareSemVer va vb). now apply compare_new.
Qed.

Lemma comparePreLoop_refl (p : list Identifier) : comparePreLoop p p = 0.
Proof.
  induction p as [|x p IH]; simpl; [reflexivity|].
  now rewrite strictEq_refl.
Qed.

(** The early return of [compare] on equal [version] fields agrees with the
    comparison of the fields. *)
Lemma compareSemVer_new (a b : string) (va vb : SemVer) :
  new a = inr va -> new b = inr vb ->
  compareSemVer va vb = orElse (compareMain va vb) (comparePre va vb).
Proof.
  intros Ha Hb. unfold compareSemVer.
  destruct (String.eqb_spec (format vb) (format va)) as [E|_]; [|reflexivity].
  rewrite (format_new a va Ha), (format_new b vb Hb) in E.
  destruct (new_coreVersion b a vb va Hb Ha E) as (E1 & E2 & E3 & E4).
  unfold compareMain, comparePre, compareIdentifiers. simpl.
  rewrite E1, E2, E3, E4, !N.eqb_refl. simpl.
  destruct (prerelease va) as [|x p]; [reflexivity|].
  simpl. now rewrite strictEq_refl, comparePreLoop_refl.
Qed.

(** The versions [compare] orders consistently: those of the tags that are
    read exactly. *)
#[local] Abbreviation parsed :=
  (fun v : SemVer => exactVersion v = true /\ exists s, new s = inr v).

Lemma consistent_compareSemVer : Consistent parsed compareSemVer.
Proof.
  pose proof consistent_main_pre as L.
  constructor.
  - intros a b [Ea [sa Ha]] [Eb [sb Hb]].
    rewrite (compareSemVer_new sa sb a b Ha Hb).
    now apply (consistent_range _ _ L).
  - intros a [Ea [sa Ha]].
    rewrite (compareSemVer_new sa sa a a Ha Ha).
    now apply (consistent_refl _ _ L).
  - intros a b [Ea [sa Ha]] [Eb [sb Hb]].
    rewrite (compareSemVer_new sa sb a b Ha Hb),
      (compareSemVer_new sb sa b a Hb Ha).
    now apply (consistent_antisym _ _ L).
  - intros a b d [Ea [sa Ha]] [Eb [sb Hb]] [Ed [sd Hd]].
    rewrite (compareSemVer_new sa sb a b Ha Hb),
      (compareSemVer_new sa sd a d Ha Hd), (compareSemVer_new sb sd b d Hb Hd).
    now apply (consistent_eq _ _ L).
  - intros a b d [Ea [sa Ha]] [Eb [sb Hb]] [Ed [sd Hd]].
    rewrite (compareSemVer_new sa sb a b Ha Hb),
      (compareSemVer_new sa sd a d Ha Hd), (compareSemVer_new sb sd b d Hb Hd).
    now apply (consistent_lt _ _ L).
Qed.

(** The tags [compare] orders consistently. *)
#[local] Abbreviation exactValid :=
  (fun s : string => NodeSemver.valid s <> None /\ exactTag s = true).

Lemma exactValid_parsed (s : string) :
  exactValid s -> exists v, new s = inr v /\ parsed v.
Proof.
  intros [Hv He]. apply valid_new in Hv. destruct Hv as [v Hv].
  exists v. repeat split; [exact Hv | now apply exactTag_new with s | now exists s].
Qed.

Lemma compare_antisym (a b : string) (c : Z) :
  exactValid a -> exactValid b ->
  NodeSemver.compare a b = inr c -> NodeSemver.compare b a = inr (- c).
Proof.
  intros Da Db.
  destruct (exactValid_parsed a Da) as [va [Ha Pa]].
  destruct (exactValid_parsed b Db) as [vb [Hb Pb]].
  rewrite (compare_new a b va vb Ha Hb), (compare_new b a vb va Hb Ha).
  intros [= <-]. f_equal.
  exact (consistent_antisym _ _ consistent_compareSemVer va vb Pa Pb).
Qed.

Lemma compare_le_trans (a b d : string) :
  exactValid a -> exactValid b -> exactValid d ->
  notAfter NodeSemver.compare a b -> notAfter NodeSemver.compare b d ->
  notAfter NodeSemver.compare a d.
Proof.
  intros Da Db Dd [c1 [H1 L1]] [c2 [H2 L2]].
  destruct (exactValid_parsed a Da) as [va [Ha Pa]].
  destruct (exactValid_parsed b Db) as [vb [Hb Pb]].
  destruct (exactValid_parsed d Dd) as [vd [Hd Pd]].
  rewrite (compare_new a b va vb Ha Hb) in H1. injection H1 as <-.
  rewrite (compare_new b d vb vd Hb Hd) in H2. injection H2 as <-.
  exists (compareSemVer va vd). split; [now apply compare_new|].
  exact (consistent_le_trans parsed compareSemVer va vb vd
           consistent_compareSemVer Pa Pb Pd L1 L2).
Qed.

(** Two versions compare equal exactly when they agree on major, minor,
    patch and pre-release. *)
Lemma compare_equal (a b : string) (va vb : SemVer) :
  new a = inr va -> new b = inr vb ->
  exactVersion va = true -> exactVersion vb = true ->
  (NodeSemver.compare a b = inr 0 <->
   major va = major vb /\ minor va = minor vb /\ patch va = patch vb /\
   prerelease va = prerelease vb).
Proof.
  intros Ha Hb Ea Eb.
  rewrite (compare_new a b va vb Ha Hb), (compareSemVer_new a b va vb Ha Hb).
  unfold orElse, compareMain, comparePre, compareIdentifiers, orElse. simpl.
  split.
  - intros H. injection H as H.
    destruct (N.eqb_spec (major va) (major vb)) as [E1|N1];
      [|simpl in H; destruct (major va <? major vb)%N; discriminate].
    destruct (N.eqb_spec (minor va) (minor vb)) as [E2|N2];
      [|simpl in H; destruct (minor va <? minor vb)%N; discriminate].
    destruct (N.eqb_spec (patch va) (patch vb)) as [E3|N3];
      [|simpl in H; destruct (patch va <? patch vb)%N; discriminate].
    simpl in H. repeat split; try assumption.
    unfold exactVersion in Ea, Eb.
    destruct (prerelease va) as [|x pa], (prerelease vb) as [|y pb];
      try discriminate; [reflexivity|].
    now apply comparePreLoop_zero.
  - intros (E1 & E2 & E3 & E4). rewrite E1, E2, E3, E4, !N.eqb_refl. simpl.
    destruct (prerelease vb) as [|y p]; [reflexivity|].
    simpl. now rewrite ?strictEq_refl, ?comparePreLoop_refl.
Qed.

End CompareFacts.

(* ================================================================== *)
(** ** The selection of the base tag *)
(* ================================================================== *)

Module SelectionFacts.

Import JS Action ListFacts SortFacts CompareFacts.

Lemma filter_names `{Semver} (tags : list Tag.t) :
  filter isSemverName (map Tag.name tags) = map Tag.name (filter isSemverTag tags).
Proof.
  induction tags as [|tag tags IH]; simpl; [reflexivity|].
  unfold isSemverName, isSemverTag in *.
  destruct (valid (Tag.name tag)); simpl; now rewrite IH.
Qed.

(** [getLatestTag] lists the tags once and returns what [selectLatest]
    computes from their names. *)
Lemma getLatestTag_selectLatest `{Semver} (octokit : Octokit) (s : State) :
  getLatestTag octokit s =
  (after s [PaginateListTags],
   match listTags octokit with
   | inl e => inl e
   | inr pages => selectLatest (tagNames pages)
   end).
Proof.
  unfold getLatestTag, paginate_listTags, bindM, emit, lift, ret, after. simpl.
  destruct (listTags octokit) as [e|pages]; [reflexivity|].
  unfold selectLatest, tagNames.
  rewrite concat_map_filter, filter_names, sort_map.
  destruct (sort _ (filter isSemverTag (concat pages))) as [e|[|tag r]];
    reflexivity.
Qed.

(** Without a version among the names there is no base tag. *)
Lemma selectLatest_no_version `{Semver} (names : list string) :
  (forall name, In name names -> valid name = None) ->
  selectLatest names = inr None.
Proof.
  intros Hnone. unfold selectLatest.
  assert (E : filter isSemverName names = []).
  { induction names as [|name names IH]; simpl; [reflexivity|].
    unfold isSemverName at 1. rewrite (Hnone name) by now left.
    apply IH. intros n Hn. apply Hnone. now right. }
  now rewrite E.
Qed.

Lemma isSemverName_valid (name : string) :
  @isSemverName nodeSemver name = true <-> NodeSemver.valid name <> None.
Proof.
  unfold isSemverName. simpl. destruct (NodeSemver.valid name); split;
    congruence.
Qed.

(** The selection never throws; it returns a version among the names, and
    none exactly when no name is a version. *)
Lemma selectLatest_returns (names : list string) :
  exists selected,
    @selectLatest nodeSemver names = inr selected /\
    (forall t, selected = Some t -> In t names /\ NodeSemver.valid t <> None) /\
    (selected = None <->
     forall name, In name names -> NodeSemver.valid name = None).
Proof.
  unfold selectLatest.
  set (versions := filter isSemverName names).
  assert (Dv : Forall (fun s => NodeSemver.valid s <> None) versions).
  { apply Forall_forall. intros t Ht. apply filter_In in Ht.
    now apply isSemverName_valid. }
  destruct (sort_permutation _ (@compare nodeSemver) compare_total versions Dv)
    as [r [Hr Pr]].
  rewrite Hr. destruct r as [|t r].
  - exists None. repeat split; try discriminate.
    + intros _ name Hin.
      apply Permutation_sym, Permutation_nil in Pr.
      destruct (NodeSemver.valid name) eqn:E; [|reflexivity].
      assert (Hv : In name versions).
      { apply filter_In. split; [exact Hin|]. apply isSemverName_valid.
        congruence. }
      rewrite Pr in Hv. destruct Hv.
  - exists (Some t). repeat split.
    + injection H as <-.
      assert (Ht : In t versions)
        by (apply Permutation_in with (t :: r);
            [now apply Permutation_sym | now left]).
      now apply filter_In in Ht.
    + injection H as <-.
      assert (Ht : In t versions)
        by (apply Permutation_in with (t :: r);
            [now apply Permutation_sym | now left]).
      apply filter_In in Ht. now apply isSemverName_valid.
    + discriminate.
    + intros Hnone.
      assert (Ht : In t versions)
        by (apply Permutation_in with (t :: r);
            [now apply Permutation_sym | now left]).
      apply filter_In in Ht. destruct Ht as [Hin Hv].
      apply isSemverName_valid in Hv. now rewrite (Hnone t Hin) in Hv.
Qed.

Lemma selectLatest_filter (names : list string) :
  @selectLatest nodeSemver (filter isSemverName names) =
  @selectLatest nodeSemver names.
Proof.
  unfold selectLatest. now rewrite filter_idempotent.
Qed.

End SelectionFacts.

Module SelectionOrderFacts.

Import JS Action ListFacts SortFacts CompareFacts SelectionFacts.

Lemma filter_permutation {A : Type} (f : A -> bool) (l l' : list A) :
  Permutation l l' -> Permutation (filter f l) (filter f l').
Proof.
  induction 1 as [|x l l' P IH|x y l|l l' l'' P IH P' IH']; simpl.
  - apply perm_nil.
  - destruct (f x); [now apply perm_skip | exact IH].
  - destruct (f x), (f y); try apply Permutation_refl. apply perm_swap.
  - now apply perm_trans with (filter f l').
Qed.

(** The versions among names that are all read exactly are ordered
    consistently. *)
Lemma versions_exactValid (names : list string) :
  Forall (fun name => NodeSemver.exactTag name = true) names ->
  Forall (fun s => NodeSemver.valid s <> None /\ NodeSemver.exactTag s = true)
    (filter isSemverName names).
Proof.
  rewrite !Forall_forall. intros He t Ht. apply filter_In in Ht.
  destruct Ht as [Hin Hv]. split; [now apply isSemverName_valid | now apply He].
Qed.

Lemma compare_total_exact (a b : string) :
  NodeSemver.valid a <> None /\ NodeSemver.exactTag a = true ->
  NodeSemver.valid b <> None /\ NodeSemver.exactTag b = true ->
  exists c, @compare nodeSemver a b = inr c.
Proof. intros [Ha _] [Hb _]. now apply compare_total. Qed.

(** The selected tag is not placed after any version of the listing: it is
    the lowest one, not the highest. *)
Lemma selectLatest_lowest (names : list string) (t : string) :
  Forall (fun name => NodeSemver.exactTag name = true) names ->
  @selectLatest nodeSemver names = inr (Some t) ->
  forall name, In name names -> NodeSemver.valid name <> None ->
               notAfter NodeSemver.compare t name.
Proof.
  intros He Hsel name Hin Hv. unfold selectLatest in Hsel.
  pose proof (versions_exactValid names He) as Dv.
  destruct (sort (@compare nodeSemver) (filter isSemverName names))
    as [e|[|h r]] eqn:Hr; try discriminate.
  injection Hsel as ->.
  destruct (sort_head_lowest _ (@compare nodeSemver) compare_total_exact
              compare_antisym compare_le_trans _ t r Dv Hr) as [_ Hlow].
  rewrite Forall_forall in Hlow. apply Hlow. apply filter_In.
  split; [exact Hin | now apply isSemverName_valid].
Qed.

(** Among the versions that compare equal to the selected one, the selected
    one is listed first. *)
Lemma selectLatest_first (names : list string) (t : string) :
  Forall (fun name => NodeSemver.exactTag name = true) names ->
  @selectLatest nodeSemver names = inr (Some t) ->
  exists before rest,
    filter isSemverName names = (before ++ t :: rest)%list /\
    Forall (fun name => exists c, NodeSemver.compare name t = inr c /\
                                  (0 < c)%Z) before /\
    Forall (notAfter NodeSemver.compare t) rest.
Proof.
  intros He Hsel. unfold selectLatest in Hsel.
  pose proof (versions_exactValid names He) as Dv.
  destruct (sort (@compare nodeSemver) (filter isSemverName names))
    as [e|[|h r]] eqn:Hr; try discriminate.
  injection Hsel as ->.
  exact (sort_head_first _ (@compare nodeSemver) compare_total_exact
           compare_antisym compare_le_trans _ t r Dv Hr).
Qed.


End SelectionOrderFacts.

(* ================================================================== *)
(** ** Versions that [format] prints *)
(* ================================================================== *)

Module PrintFacts.

Import JS NodeSemver NumberFacts ParseFacts.

(** The characters of a main version: digits and dots. *)
#[local] Abbreviation mainChar :=
  (fun c : ascii => isDigit c || Ascii.eqb c ".").

Lemma allChars_impl (p q : ascii -> bool) (s : string) :
  (forall c, p c = true -> q c = true) ->
  allChars p s = true -> allChars q s = true.
Proof.
  intros Hpq. induction s as [|c s IH]; simpl; [reflexivity|].
  intros H. apply andb_prop in H. destruct H as [Hc Hs].
  now rewrite (Hpq c Hc), IH.
Qed.

Lemma allChars_append (p : ascii -> bool) (a b : string) :
  allChars p (a ++ b) = allChars p a && allChars p b.
Proof.
  induction a as [|c a IH]; simpl; [reflexivity|].
  now rewrite IH, andb_assoc.
Qed.

Lemma length_append (a b : string) :
  String.length (a ++ b) = (String.length a + String.length b)%nat.
Proof. induction a as [|c a IH]; simpl; [reflexivity | now rewrite IH]. Qed.

Lemma mainChar_plain (c : ascii) :
  mainChar c = true ->
  isWhiteSpace c = false /\ Ascii.eqb c "+" = false /\
  Ascii.eqb c "-" = false /\ Ascii.eqb c "v" = false.
Proof.
  destruct c as [[|] [|] [|] [|] [|] [|] [|] [|]]; intros H;
    try discriminate H; repeat split; reflexivity.
Qed.

Lemma digit_not_dot (c : ascii) : isDigit c = true -> Ascii.eqb c "." = false.
Proof.
  destruct c as [[|] [|] [|] [|] [|] [|] [|] [|]]; intros H;
    try discriminate H; reflexivity.
Qed.

(** White space is only trimmed where there is some. *)
Lemma trimEnd_plain (s : string) :
  allChars (fun c => negb (isWhiteSpace c)) s = true -> trimEnd s = s.
Proof.
  induction s as [|c s IH]; simpl; [reflexivity|].
  intros H. apply andb_prop in H. destruct H as [Hc Hs].
  apply negb_true_iff in Hc. now rewrite Hc, IH.
Qed.

Lemma trim_plain (s : string) :
  allChars (fun c => negb (isWhiteSpace c)) s = true -> trim s = s.
Proof.
  intros H. unfold trim.
  assert (E : trimStart s = s).
  { destruct s as [|c s]; simpl in *; [reflexivity|].
    apply andb_prop in H. destruct H as [Hc _].
    apply negb_true_iff in Hc. now rewrite Hc. }
  rewrite E. now apply trimEnd_plain.
Qed.

Lemma splitFirst_absent (sep : ascii) (s : string) :
  allChars (fun c => negb (Ascii.eqb c sep)) s = true ->
  splitFirst sep s = (s, None).
Proof.
  induction s as [|c s IH]; simpl; [reflexivity|].
  intros H. apply andb_prop in H. destruct H as [Hc Hs].
  apply negb_true_iff in Hc. now rewrite Hc, IH.
Qed.

Lemma split_absent (sep : ascii) (s : string) :
  allChars (fun c => negb (Ascii.eqb c sep)) s = true -> split sep s = [s].
Proof.
  induction s as [|c s IH]; simpl; [reflexivity|].
  intros H. apply andb_prop in H. destruct H as [Hc Hs].
  apply negb_true_iff in Hc. now rewrite Hc, IH.
Qed.

Lemma split_append (sep : ascii) (a r : string) :
  allChars (fun c => negb (Ascii.eqb c sep)) a = true ->
  split sep (a ++ String sep r) = a :: split sep r.
Proof.
  induction a as [|c a IH]; simpl.
  - intros _. now rewrite Ascii.eqb_refl.
  - intros H. apply andb_prop in H. destruct H as [Hc Hs].
    apply negb_true_iff in Hc. now rewrite Hc, IH.
Qed.

(** *** The decimal notation of a number *)

Lemma string_of_uint_digits (d : Decimal.uint) :
  allChars isDigit (NilEmpty.string_of_uint d) = true.
Proof. induction d; simpl; auto. Qed.

Lemma string_of_uint_length (d : Decimal.uint) :
  String.length (NilEmpty.string_of_uint d) = Decimal.nb_digits d.
Proof. induction d; simpl; auto. Qed.

Lemma to_uint_normal (n : N) : Decimal.unorm (N.to_uint n) = N.to_uint n.
Proof.
  rewrite <- DecimalN.Unsigned.to_of. now rewrite DecimalN.Unsigned.of_to.
Qed.

Lemma toString_digits (n : N) : allChars isDigit (toString n) = true.
Proof. apply string_of_uint_digits. Qed.

Lemma toString_numericIdentifier (n : N) :
  isNumericIdentifier (toString n) = true.
Proof.
  unfold toString. pose proof (to_uint_normal n) as Hn.
  destruct (N.to_uint n) as [|d|d|d|d|d|d|d|d|d|d] eqn:E; simpl;
    try apply string_of_uint_digits.
  - discriminate Hn.
  - destruct d; try reflexivity;
      (rewrite unorm_D0 in Hn;
       match type of Hn with
       | Decimal.unorm ?u = _ =>
           assert (Hu : u <> Decimal.Nil) by discriminate;
           pose proof (nb_digits_unorm u Hu) as Hle
       end;
       rewrite Hn in Hle; simpl in Hle; lia).
Qed.

Lemma double_digits (d : Decimal.uint) :
  (Decimal.nb_digits (Decimal.Little.double d) <= S (Decimal.nb_digits d) /\
   Decimal.nb_digits (Decimal.Little.succ_double d) <= S (Decimal.nb_digits d))%nat.
Proof. induction d; simpl; lia. Qed.

Lemma to_little_uint_digits (p : positive) :
  (Decimal.nb_digits (Pos.to_little_uint p) <= Pos.size_nat p)%nat.
Proof.
  induction p as [p IH|p IH|]; simpl.
  - pose proof (double_digits (Pos.to_little_uint p)). lia.
  - pose proof (double_digits (Pos.to_little_uint p)). lia.
  - lia.
Qed.

Lemma size_nat_bound (p : positive) (k : nat) :
  (N.pos p < 2 ^ N.of_nat k)%N -> (Pos.size_nat p <= k)%nat.
Proof.
  revert k. induction p as [p IH|p IH|]; intros [|k] H; simpl.
  - simpl in H. lia.
  - rewrite Nat2N.inj_succ, N.pow_succ_r' in H.
    apply le_n_S, IH. lia.
  - simpl in H. lia.
  - rewrite Nat2N.inj_succ, N.pow_succ_r' in H.
    apply le_n_S, IH. lia.
  - simpl in H. lia.
  - lia.
Qed.

(** A number up to 2^53 prints in at most 54 characters. *)
Lemma toString_length (n : N) :
  (n <= 2 ^ 53)%N -> (String.length (toString n) <= 54)%nat.
Proof.
  intros H. unfold toString. rewrite string_of_uint_length.
  destruct n as [|p]; simpl; [lia|].
  unfold Pos.to_uint. rewrite nb_digits_rev.
  apply Nat.le_trans with (Pos.size_nat p); [apply to_little_uint_digits|].
  apply size_nat_bound. change (2 ^ N.of_nat 54)%N with (2 * 2 ^ 53)%N.
  assert (0 < 2 ^ 53)%N by reflexivity. lia.
Qed.

End PrintFacts.

(* ================================================================== *)
(** ** [semver.inc] *)
(* ================================================================== *)

Module IncrementFacts.

Import JS NodeSemver NumberFacts ParseFacts PrintFacts.

Lemma withoutV_plain (c : ascii) (r : string) :
  Ascii.eqb c "v" = false -> withoutV (String c r) = String c r.
Proof.
  destruct c as [[|] [|] [|] [|] [|] [|] [|] [|]]; intros H;
    try discriminate H; reflexivity.
Qed.

Lemma mainVersion_chars (a b c : N) :
  allChars (fun x => isDigit x || Ascii.eqb x ".")
    (toString a ++ "." ++ toString b ++ "." ++ toString c) = true.
Proof.
  assert (Hd : forall n, allChars (fun x => isDigit x || Ascii.eqb x ".")
                           (toString n) = true).
  { intros n. apply allChars_impl with isDigit; [|apply toString_digits].
    intros x Hx. now rewrite Hx. }
  rewrite !allChars_append, !Hd. reflexivity.
Qed.

Lemma toString_no_dot (n : N) :
  allChars (fun x => negb (Ascii.eqb x ".")) (toString n) = true.
Proof.
  apply allChars_impl with isDigit; [|apply toString_digits].
  intros x Hx. now rewrite (digit_not_dot x Hx).
Qed.

(** A main version within range reads back as it was printed. *)
Lemma new_mainVersion (a b c : N) :
  (a <= MAX_SAFE_INTEGER)%N -> (b <= MAX_SAFE_INTEGER)%N ->
  (c <= MAX_SAFE_INTEGER)%N ->
  new (toString a ++ "." ++ toString b ++ "." ++ toString c)
  = inr {| major := a; minor := b; patch := c;
           prerelease := []; build := [] |}.
Proof.
  intros Ha Hb Hc.
  assert (Hmax : (MAX_SAFE_INTEGER < 2 ^ 53)%N) by reflexivity.
  set (s := toString a ++ "." ++ toString b ++ "." ++ toString c).
  pose proof (mainVersion_chars a b c) as Hchars. fold s in Hchars.
  assert (Hlen : (String.length s <= MAX_LENGTH)%nat).
  { unfold s. rewrite !length_append. simpl String.length.
    pose proof (toString_length a). pose proof (toString_length b).
    pose proof (toString_length c). unfold MAX_LENGTH. lia. }
  assert (Htrim : trim s = s).
  { apply trim_plain. apply allChars_impl with (2 := Hchars).
    intros x Hx. now rewrite (proj1 (mainChar_plain x Hx)). }
  assert (Hv : withoutV s = s).
  { pose proof (toString_numericIdentifier a) as Hn.
    unfold s in *. destruct (toString a) as [|x r]; [discriminate Hn|].
    simpl in Hchars. apply andb_prop in Hchars. destruct Hchars as [Hx _].
    apply withoutV_plain. apply (mainChar_plain x Hx). }
  assert (Hplus : splitFirst "+" s = (s, None)).
  { apply splitFirst_absent. apply allChars_impl with (2 := Hchars).
    intros x Hx. destruct (mainChar_plain x Hx) as (_ & E & _). now rewrite E. }
  assert (Hdash : splitFirst "-" s = (s, None)).
  { apply splitFirst_absent. apply allChars_impl with (2 := Hchars).
    intros x Hx. destruct (mainChar_plain x Hx) as (_ & _ & E & _).
    now rewrite E. }
  assert (Hsplit : split "." s = [toString a; toString b; toString c]).
  { unfold s. simpl append.
    rewrite (split_append "." (toString a)) by apply toString_no_dot.
    rewrite (split_append "." (toString b)) by apply toString_no_dot.
    now rewrite split_absent by apply toString_no_dot. }
  unfold new. apply Nat.ltb_ge in Hlen. rewrite Hlen, Htrim.
  unfold matchFULL. rewrite Hv, Hplus, Hdash, Hsplit.
  rewrite !toString_numericIdentifier. simpl.
  rewrite !Number_toString by lia.
  assert (Ea : (MAX_SAFE_INTEGER <? a)%N = false) by (apply N.ltb_ge; lia).
  assert (Eb : (MAX_SAFE_INTEGER <? b)%N = false) by (apply N.ltb_ge; lia).
  assert (Ec : (MAX_SAFE_INTEGER <? c)%N = false) by (apply N.ltb_ge; lia).
  now rewrite Ea, Eb, Ec.
Qed.

(** A version without pre-release prints as its main version. *)
Lemma format_release (v : SemVer) :
  prerelease v = [] ->
  format v = toString (major v) ++ "." ++ toString (minor v) ++ "."
             ++ toString (patch v).
Proof. unfold format. now intros ->. Qed.

Lemma compareIdentifiers_succ (x : N) :
  compareIdentifiers (INum (x + 1)) (INum x) = 1%Z.
Proof.
  unfold compareIdentifiers. simpl.
  destruct (N.eqb_spec (x + 1) x); [lia|].
  destruct (N.ltb_spec (x + 1) x); [lia | reflexivity].
Qed.

Lemma compareIdentifiers_same (x : N) :
  compareIdentifiers (INum x) (INum x) = 0%Z.
Proof. unfold compareIdentifiers. simpl. now rewrite N.eqb_refl. Qed.

End IncrementFacts.

(* ================================================================== *)
(** ** Label validation *)
(* ================================================================== *)

Module LabelFacts.

Import JS Action ListFacts.

Lemma validLabels_joined :
  join ", " validLabels = "patch, minor, major, no-release".
Proof. reflexivity. Qed.

(** The three outcomes of [validatePullRequestLabel], by the number of labels
    of the pull request that are release labels. *)
Lemma validatePullRequestLabel_count (pr : PullRequest) :
  validatePullRequestLabel pr =
  match length (filter isValidLabel (labels pr)) with
  | 0 => throw MissingLabel
  | 1 => ok tt
  | _ => throw AmbiguousLabel
  end.
Proof.
  unfold validatePullRequestLabel.
  rewrite existsb_filter_length, Bool.negb_involutive.
  destruct (length (filter isValidLabel (labels pr))) as [|[|n]]; reflexivity.
Qed.

Lemma isValidLabel_iff (it : Label.t) :
  isValidLabel it = true <-> In (Label.name it) validLabels.
Proof.
  unfold isValidLabel, includes. rewrite existsb_exists. split.
  - intros [x [Hin Heq]]. apply String.eqb_eq in Heq. now subst.
  - intros Hin. exists (Label.name it). split; [exact Hin | apply String.eqb_refl].
Qed.

End LabelFacts.

(* ================================================================== *)
(** ** The release decision *)
(* ================================================================== *)

Module DecisionFacts.

Import JS Action LabelFacts.

Lemma validate_singleton (pr : PullRequest) (it : Label.t) :
  filter isValidLabel (labels pr) = [it] -> validatePullRequestLabel pr = ok tt.
Proof. intros H. rewrite validatePullRequestLabel_count, H. reflexivity. Qed.

Lemma names_singleton (pr : PullRequest) (n : string) :
  map Label.name (filter isValidLabel (labels pr)) = [n] ->
  exists it, filter isValidLabel (labels pr) = [it] /\ Label.name it = n.
Proof.
  destruct (filter isValidLabel (labels pr)) as [|it [|it' l]]; simpl; try discriminate.
  intros [= <-]. now exists it.
Qed.

(** What [publishGitTag] does once the commit has resolved to the pull
    request [pr] whose only release label is [it]. *)
Lemma publishGitTag_resolved `{Semver} (world : World) (octokit : Octokit)
  (s : State) (pr : PullRequest) (it : Label.t) :
  commits_pulls octokit (sha (context world)) = inr [pr] ->
  filter isValidLabel (labels pr) = [it] ->
  publishGitTag world octokit s =
  (if Label.name it =? noRelease then
     bindM (core_info (noRelease ++ " label detected, skipping release"))
           (fun _ => ret "")
   else
     bindM (getLatestTag octokit) (fun latestTag =>
     bindM match latestTag with
           | None => ret (getInput world "initial_tag")
           | Some latestTag => lift (incrementTag latestTag (Label.name it))
           end (fun newTag =>
     bindM (publishTag world octokit newTag) (fun _ => ret newTag))))
    (after s [RequestCommitPulls (sha (context world))]).
Proof.
  intros Hprs Hit.
  unfold publishGitTag, pullRequestFromCommitSha, request_commits_pulls.
  unfold bindM at 1 2 3 4 5. unfold emit, lift at 1. simpl.
  rewrite Hprs. simpl.
  unfold lift at 1. rewrite (validate_singleton pr it Hit).
  unfold lift at 1. unfold bumpOf. rewrite Hit. simpl.
  reflexivity.
Qed.

End DecisionFacts.

(* ================================================================== *)
(** ** The invocation boundary *)
(* ================================================================== *)

Module BoundaryFacts.

Import JS Action ListFacts.

Lemma after_nil (s : State) : after s [] = s.
Proof. destruct s. unfold after. simpl. now rewrite List.app_nil_r. Qed.

Lemma after_after (s : State) (l1 l2 : list Event) :
  after (after s l1) l2 = after s (l1 ++ l2).
Proof. unfold after. simpl. now rewrite List.app_assoc. Qed.

Section Quiet.

Context {A B : Type}.

Lemma quiet_ret (a : A) : quiet (ret a).
Proof. intros s. exists []. now rewrite after_nil. Qed.

Lemma quiet_raise (e : Thrown) : quiet (@raise A e).
Proof. intros s. exists []. now rewrite after_nil. Qed.

Lemma quiet_lift (x : Exc A) : quiet (lift x).
Proof. intros s. exists []. now rewrite after_nil. Qed.

Lemma quiet_bind (m : M A) (k : A -> M B) :
  quiet m -> (forall a, quiet (k a)) -> quiet (bindM m k).
Proof.
  intros Hm Hk s. destruct (Hm s) as [l1 [E1 Q1]].
  unfold bindM. destruct (m s) as [s1 [e|a]]; simpl in *.
  - now exists l1.
  - destruct (Hk a s1) as [l2 [E2 Q2]]. exists (l1 ++ l2)%list.
    rewrite E2, E1, after_after. split; [reflexivity|].
    now apply existsb_app_false.
Qed.

End Quiet.

Lemma quiet_emit (e : Event) : isSetFailed e = false -> quiet (emit e).
Proof. intros He s. exists [e]. simpl. now rewrite He. Qed.

(** Closes the goals [quiet m] for the straight-line parts of a computation
    and leaves the ones that branch on a value. *)
Ltac quiet :=
  repeat first
    [ apply quiet_ret | apply quiet_raise | apply quiet_lift
    | apply quiet_emit; reflexivity
    | apply quiet_bind; [| intros ?] ].

Lemma quiet_pullRequestFromCommitSha (world : World) (octokit : Octokit) :
  quiet (pullRequestFromCommitSha world octokit).
Proof.
  unfold pullRequestFromCommitSha, request_commits_pulls.
  apply quiet_bind; [quiet|]. intros prList.
  destruct (length prList =? 0)%nat; [quiet|].
  destruct (negb (length prList =? 1)%nat); [quiet|].
  destruct prList; quiet.
Qed.

Lemma quiet_getLatestTag `{Semver} (octokit : Octokit) :
  quiet (getLatestTag octokit).
Proof.
  unfold getLatestTag, paginate_listTags.
  apply quiet_bind; [quiet|]. intros tagsList.
  apply quiet_bind; [quiet|]. intros sorted.
  destruct (length sorted =? 0)%nat; [quiet|]. destruct sorted; quiet.
Qed.

Lemma quiet_publishTag (world : World) (octokit : Octokit) (tag : string) :
  quiet (publishTag world octokit tag).
Proof. unfold publishTag, core_info, rest_git_createRef. quiet. Qed.

Lemma quiet_publishGitTag `{Semver} (world : World) (octokit : Octokit) :
  quiet (publishGitTag world octokit).
Proof.
  unfold publishGitTag.
  apply quiet_bind; [apply quiet_pullRequestFromCommitSha|]. intros pr.
  apply quiet_bind; [quiet|]. intros _.
  apply quiet_bind; [quiet|]. intros bump.
  destruct (bump =? noRelease).
  - unfold core_info. quiet.
  - apply quiet_bind; [apply quiet_getLatestTag|]. intros latestTag.
    apply quiet_bind; [destruct latestTag; quiet|]. intros newTag.
    apply quiet_bind; [apply quiet_publishTag|]. intros _. quiet.
Qed.

Lemma quiet_tryBlock `{Semver} (world : World) : quiet (tryBlock world).
Proof.
  unfold tryBlock.
  apply quiet_bind; [quiet|]. intros octokit.
  destruct (payload_pull_request (context world)).
  - unfold rest_pulls_get. quiet.
  - apply quiet_bind; [apply quiet_publishGitTag|].
    intros newTag. unfold core_setOutput. quiet.
Qed.

End BoundaryFacts.


(* ================================================================== *)
(** ** The runs of [publishGitTag] *)
(* ================================================================== *)

Module RunFacts.

Import JS Action Calls ListFacts LabelFacts DecisionFacts SelectionFacts.

Lemma after_two (s : State) (e1 : Event) (l : list Event) :
  after (after s [e1]) l = after s (e1 :: l).
Proof. unfold after. simpl. now rewrite <- List.app_assoc. Qed.

(** The pull-request query is the first call, and a rejection, no pull
    request or several end the run there. *)
Lemma publishGitTag_rejected `{Semver} (world : World) (octokit : Octokit)
  (s : State) (e : Thrown) :
  commits_pulls octokit (sha (context world)) = inl e ->
  publishGitTag world octokit s
  = (after s [RequestCommitPulls (sha (context world))], inl e).
Proof.
  intros Hprs.
  unfold publishGitTag, pullRequestFromCommitSha, request_commits_pulls,
    bindM, emit, lift, after. simpl. now rewrite Hprs.
Qed.

Lemma publishGitTag_unresolved `{Semver} (world : World) (octokit : Octokit)
  (s : State) (prs : list PullRequest) :
  commits_pulls octokit (sha (context world)) = inr prs ->
  length prs <> 1 ->
  publishGitTag world octokit s
  = (after s [RequestCommitPulls (sha (context world))],
     inl match prs with
         | [] => NoAssociatedPullRequest (sha (context world))
         | _ :: _ => AmbiguousAssociatedPullRequest (sha (context world))
         end).
Proof.
  intros Hprs Hlen.
  unfold publishGitTag, pullRequestFromCommitSha, request_commits_pulls,
    bindM, emit, lift, raise, after. simpl. rewrite Hprs.
  destruct prs as [|pr [|pr' prs]]; simpl; try reflexivity. now elim Hlen.
Qed.

(** A pull request without exactly one release label ends the run after the
    pull-request query. *)
Lemma publishGitTag_invalid `{Semver} (world : World) (octokit : Octokit)
  (s : State) (pr : PullRequest) :
  commits_pulls octokit (sha (context world)) = inr [pr] ->
  releaseLabelCount pr <> 1 ->
  publishGitTag world octokit s
  = (after s [RequestCommitPulls (sha (context world))],
     inl (if (releaseLabelCount pr =? 0)%nat then MissingLabel
          else AmbiguousLabel)).
Proof.
  intros Hprs Hcount.
  unfold publishGitTag, pullRequestFromCommitSha, request_commits_pulls,
    bindM, emit, lift, raise, after. simpl. rewrite Hprs. simpl.
  rewrite validatePullRequestLabel_count. unfold releaseLabelCount in *.
  destruct (length (filter isValidLabel (labels pr))) as [|[|n]];
    try reflexivity. now elim Hcount.
Qed.

(** The run once the bump is known to be a release. *)
Lemma publishGitTag_release `{Semver} (world : World) (octokit : Octokit)
  (s : State) (pr : PullRequest) (it : Label.t) :
  commits_pulls octokit (sha (context world)) = inr [pr] ->
  filter isValidLabel (labels pr) = [it] ->
  Label.name it <> noRelease ->
  let commit := sha (context world) in
  publishGitTag world octokit s =
  match listTags octokit with
  | inl e => (after s [RequestCommitPulls commit; PaginateListTags], inl e)
  | inr pages =>
      match selectLatest (tagNames pages) with
      | inl e => (after s [RequestCommitPulls commit; PaginateListTags], inl e)
      | inr latestTag =>
          match match latestTag with
                | None => ok (getInput world "initial_tag")
                | Some latestTag => incrementTag latestTag (Label.name it)
                end with
          | inl e =>
              (after s [RequestCommitPulls commit; PaginateListTags], inl e)
          | inr newTag =>
              (after s [RequestCommitPulls commit; PaginateListTags;
                        LogInfo (tagging commit newTag);
                        CreateRef (tagRef newTag) commit],
               match createRef octokit (tagRef newTag) commit with
               | inl e => inl e
               | inr _ => inr newTag
               end)
          end
      end
  end.
Proof.
  intros Hprs Hit Hbump commit.
  rewrite (publishGitTag_resolved world octokit s pr it Hprs Hit).
  apply String.eqb_neq in Hbump. rewrite Hbump.
  unfold bindM at 1. rewrite getLatestTag_selectLatest, after_two.
  fold commit.
  destruct (listTags octokit) as [e|pages]; [reflexivity|].
  destruct (selectLatest (tagNames pages)) as [e|latestTag]; [reflexivity|].
  assert (Hpublish : forall newTag,
    bindM (publishTag world octokit newTag) (fun _ => ret newTag)
      (after s [RequestCommitPulls commit; PaginateListTags])
    = (after s [RequestCommitPulls commit; PaginateListTags;
                LogInfo (tagging commit newTag);
                CreateRef (tagRef newTag) commit],
       match createRef octokit (tagRef newTag) commit with
       | inl e => inl e
       | inr _ => inr newTag
       end)).
  { intros newTag.
    unfold publishTag, core_info, rest_git_createRef, bindM, emit, lift, ret,
      after, tagging, tagRef. simpl. fold commit.
    rewrite <- !List.app_assoc. simpl.
    destruct (createRef octokit _ commit) as [e|[]]; reflexivity. }
  destruct latestTag as [latestTag|].
  - unfold bindM at 1. unfold lift at 1.
    destruct (incrementTag latestTag (Label.name it)) as [e|newTag];
      [reflexivity|]. apply Hpublish.
  - unfold bindM at 1. unfold ret at 1. apply Hpublish.
Qed.

(** Every run of [publishGitTag] is one of the four of [Outcome]. *)
Lemma publishGitTag_outcome `{Semver} (world : World) (octokit : Octokit)
  (s : State) :
  exists log result,
    publishGitTag world octokit s = (after s log, result) /\
    Outcome octokit (sha (context world)) log result.
Proof.
  destruct (commits_pulls octokit (sha (context world))) as [e|prs] eqn:Hprs.
  { do 2 eexists.
    split; [apply (publishGitTag_rejected _ _ _ _ Hprs) | constructor]. }
  destruct (Nat.eq_dec (length prs) 1) as [Hlen|Hlen].
  2:{ do 2 eexists.
      split; [apply (publishGitTag_unresolved _ _ _ _ Hprs Hlen)
             | constructor]. }
  destruct prs as [|pr [|pr' prs]]; try discriminate Hlen.
  destruct (Nat.eq_dec (releaseLabelCount pr) 1) as [Hcount|Hcount].
  2:{ do 2 eexists.
      split; [apply (publishGitTag_invalid _ _ _ _ Hprs Hcount)
             | constructor]. }
  unfold releaseLabelCount in Hcount.
  destruct (filter isValidLabel (labels pr)) as [|it [|it' l]] eqn:Hit;
    try discriminate Hcount.
  destruct (String.eqb_spec (Label.name it) noRelease) as [Hskip|Hbump].
  { do 2 eexists. split; [|apply Skipped].
    rewrite (publishGitTag_resolved world octokit s pr it Hprs Hit), Hskip.
    simpl. unfold bindM, core_info, emit, ret, after. simpl.
    now rewrite <- List.app_assoc. }
  pose proof (publishGitTag_release world octokit s pr it Hprs Hit Hbump)
    as Hrun. simpl in Hrun.
  destruct (listTags octokit) as [e|pages];
    [do 2 eexists; split; [exact Hrun | constructor]|].
  destruct (selectLatest (tagNames pages)) as [e|latestTag];
    [do 2 eexists; split; [exact Hrun | constructor]|].
  destruct (match latestTag with
            | Some latestTag0 => incrementTag latestTag0 (Label.name it)
            | None => ok (getInput world "initial_tag")
            end) as [e|newTag];
    do 2 eexists; (split; [exact Hrun | constructor]).
Qed.

End RunFacts.

(* ================================================================== *)
(** ** [incrementTag] on the tags of a listing *)
(* ================================================================== *)

Module IncrementRunFacts.

Import JS Action NodeSemver ParseFacts CompareFacts IncrementFacts.

(** The three release types of [validLabels] are increments of [inc], and
    the result has no pre-release part. *)
Lemma incSemVer_release (v : SemVer) (bump : string) :
  In bump [Action.patch; Action.minor; Action.major] ->
  exists v',
    incSemVer v bump = inr v' /\ prerelease v' = [] /\
    (major v' <= major v + 1)%N /\ (minor v' <= minor v + 1)%N /\
    (patch v' <= patch v + 1)%N.
Proof.
  intros [<-|[<-|[<-|[]]]]; eexists; (split; [reflexivity|]); simpl;
    (split; [reflexivity|]);
    repeat match goal with |- context [if ?b then _ else _] => destruct b end;
    lia.
Qed.

Lemma inc_release (tag bump : string) (v : SemVer) :
  new tag = inr v ->
  In bump [Action.patch; Action.minor; Action.major] ->
  exists v',
    incSemVer v bump = inr v' /\ prerelease v' = [] /\
    NodeSemver.inc tag bump = Some (format v').
Proof.
  intros Hnew Hbump.
  destruct (incSemVer_release v bump Hbump) as (v' & Hinc & Hpre & _).
  exists v'. repeat split; try assumption.
  unfold NodeSemver.inc. rewrite Hnew. simpl. now rewrite Hinc.
Qed.

Lemma inc_invalid (tag bump : string) :
  NodeSemver.valid tag = None -> NodeSemver.inc tag bump = None.
Proof.
  unfold NodeSemver.valid, NodeSemver.inc.
  destruct (new tag); [reflexivity | discriminate].
Qed.

(** The components of a version are safe integers. *)
Lemma new_bounded (tag : string) (v : SemVer) :
  new tag = inr v ->
  (major v <= MAX_SAFE_INTEGER)%N /\ (minor v <= MAX_SAFE_INTEGER)%N /\
  (patch v <= MAX_SAFE_INTEGER)%N.
Proof.
  intros Hnew.
  destruct (new_returns tag v Hnew)
    as (m & g4 & a & b & c & _ & _ & _ & _ & _ & _ & _ & Ha & Hb & Hc
        & -> & -> & -> & _).
  auto.
Qed.

(** A version without pre-release part and with safe components prints as a
    string that [valid] accepts and leaves as it is. *)
Lemma valid_format_release (v : SemVer) :
  prerelease v = [] ->
  (major v <= MAX_SAFE_INTEGER)%N -> (minor v <= MAX_SAFE_INTEGER)%N ->
  (patch v <= MAX_SAFE_INTEGER)%N ->
  new (format v) = inr {| major := major v; minor := minor v;
                          patch := patch v; prerelease := []; build := [] |}
  /\ NodeSemver.valid (format v) = Some (format v)
  /\ exactTag (format v) = true.
Proof.
  intros Hpre Hmajor Hminor Hpatch.
  pose proof (new_mainVersion _ _ _ Hmajor Hminor Hpatch) as Hnew.
  rewrite (format_release v Hpre).
  split; [exact Hnew|]. split.
  - unfold NodeSemver.valid. rewrite Hnew. f_equal.
  - unfold exactTag. now rewrite Hnew.
Qed.

End IncrementRunFacts.

(* ================================================================== *)
(** ** The runs of [main] *)
(* ================================================================== *)

Module MainFacts.

Import JS Action Calls RunFacts.

(** The [catch] block after the calls [log]. *)
Lemma catchBlock_after (e : Thrown) (s : State) (log : list Event) :
  catchBlock e (after s log) =
  match e with
  | Error message => (afterFailure s (log ++ [SetFailed message]), inr tt)
  | NonError _ => (after s log, inr tt)
  end.
Proof.
  destruct e as [message|v]; [|reflexivity].
  unfold catchBlock, core_setFailed, afterFailure, after. simpl.
  now rewrite List.app_assoc.
Qed.

Lemma main_tryBlock `{Semver} (world : World) (s : State) :
  main world s =
  match tryBlock world s with
  | (s', inl e) => catchBlock e s'
  | (s', inr a) => (s', inr a)
  end.
Proof. reflexivity. Qed.

(** Without a client no request is made. *)
Lemma tryBlock_no_client `{Semver} (world : World) (s : State) (e : Thrown) :
  getOctokit world (getInput world "github_token") = inl e ->
  tryBlock world s = (s, inl e).
Proof. intros Hclient. unfold tryBlock, bindM, lift. now rewrite Hclient. Qed.

(** On a pull-request event the label of the pull request is validated. *)
Lemma tryBlock_pull_request `{Semver} (world : World) (octokit : Octokit)
  (s : State) (pull_number : Z) :
  getOctokit world (getInput world "github_token") = inr octokit ->
  payload_pull_request (context world) = Some pull_number ->
  tryBlock world s =
  (after s [PullsGet pull_number],
   match pulls_get octokit pull_number with
   | inl e => inl e
   | inr pr => validatePullRequestLabel pr
   end).
Proof.
  intros Hclient Hevent.
  unfold tryBlock, bindM, lift. rewrite Hclient, Hevent.
  unfold rest_pulls_get, bindM, emit, lift, after. simpl.
  destruct (pulls_get octokit pull_number) as [e|pr]; reflexivity.
Qed.

(** On any other event the tag is published and set as the output. *)
Lemma tryBlock_merge `{Semver} (world : World) (octokit : Octokit)
  (s : State) (log : list Event) (result : Exc string) :
  getOctokit world (getInput world "github_token") = inr octokit ->
  payload_pull_request (context world) = None ->
  publishGitTag world octokit s = (after s log, result) ->
  tryBlock world s =
  match result with
  | inl e => (after s log, inl e)
  | inr newTag => (after s (log ++ [SetOutput "tag" newTag]), inr tt)
  end.
Proof.
  intros Hclient Hevent Hrun.
  unfold tryBlock, bindM at 1, lift at 1. rewrite Hclient, Hevent.
  unfold bindM. rewrite Hrun.
  destruct result as [e|newTag]; [reflexivity|].
  unfold core_setOutput, emit, after. simpl. now rewrite List.app_assoc.
Qed.

Lemma main_merge `{Semver} (world : World) (octokit : Octokit)
  (s : State) (log : list Event) (result : Exc string) :
  getOctokit world (getInput world "github_token") = inr octokit ->
  payload_pull_request (context world) = None ->
  publishGitTag world octokit s = (after s log, result) ->
  main world s =
  match result with
  | inl (Error message) => (afterFailure s (log ++ [SetFailed message]), inr tt)
  | inl (NonError _) => (after s log, inr tt)
  | inr newTag => (after s (log ++ [SetOutput "tag" newTag]), inr tt)
  end.
Proof.
  intros Hclient Hevent Hrun.
  rewrite main_tryBlock, (tryBlock_merge world octokit s log result); auto.
  destruct result as [e|newTag]; [apply catchBlock_after | reflexivity].
Qed.

Lemma main_pull_request `{Semver} (world : World) (octokit : Octokit)
  (s : State) (pull_number : Z) :
  getOctokit world (getInput world "github_token") = inr octokit ->
  payload_pull_request (context world) = Some pull_number ->
  main world s =
  match match pulls_get octokit pull_number with
        | inl e => inl e
        | inr pr => validatePullRequestLabel pr
        end with
  | inl (Error message) =>
      (afterFailure s [PullsGet pull_number; SetFailed message], inr tt)
  | inl (NonError _) => (after s [PullsGet pull_number], inr tt)
  | inr _ => (after s [PullsGet pull_number], inr tt)
  end.
Proof.
  intros Hclient Hevent.
  rewrite main_tryBlock, (tryBlock_pull_request world octokit s pull_number);
    auto.
  destruct (match pulls_get octokit pull_number with
            | inl e => inl e
            | inr pr => validatePullRequestLabel pr
            end) as [e|[]]; [apply catchBlock_after | reflexivity].
Qed.

(** The three kinds of runs of [main]: without a client, on a pull-request
    event and on any other event. *)
Lemma main_cases `{Semver} (world : World) (s : State) :
  (exists e,
     getOctokit world (getInput world "github_token") = inl e /\
     main world s = catchBlock e (after s [])) \/
  (exists octokit pull_number validation,
     getOctokit world (getInput world "github_token") = inr octokit /\
     payload_pull_request (context world) = Some pull_number /\
     validation = match pulls_get octokit pull_number with
                  | inl e => inl e
                  | inr pr => validatePullRequestLabel pr
                  end /\
     main world s =
     match validation with
     | inl e => catchBlock e (after s [PullsGet pull_number])
     | inr _ => (after s [PullsGet pull_number], inr tt)
     end) \/
  (exists octokit log result,
     getOctokit world (getInput world "github_token") = inr octokit /\
     payload_pull_request (context world) = None /\
     publishGitTag world octokit s = (after s log, result) /\
     Outcome octokit (sha (context world)) log result /\
     main world s =
     match result with
     | inl e => catchBlock e (after s log)
     | inr newTag => (after s (log ++ [SetOutput "tag" newTag]), inr tt)
     end).
Proof.
  destruct (getOctokit world (getInput world "github_token"))
    as [e|octokit] eqn:Hclient.
  { left. exists e. split; [reflexivity|].
    rewrite main_tryBlock, (tryBlock_no_client world s e Hclient).
    f_equal. unfold after. destruct s. simpl. now rewrite List.app_nil_r. }
  right.
  destruct (payload_pull_request (context world)) as [pull_number|] eqn:Hevent.
  - left. exists octokit, pull_number. eexists.
    repeat (split; [reflexivity|]).
    rewrite main_tryBlock,
      (tryBlock_pull_request world octokit s pull_number Hclient Hevent).
    destruct (match pulls_get octokit pull_number with
              | inl e => inl e
              | inr pr => validatePullRequestLabel pr
              end) as [e|[]]; reflexivity.
  - right.
    destruct (publishGitTag_outcome world octokit s)
      as (log & result & Hrun & Hout).
    exists octokit, log, result.
    repeat (split; [reflexivity || assumption|]).
    rewrite main_tryBlock,
      (tryBlock_merge world octokit s log result Hclient Hevent Hrun).
    destruct result; reflexivity.
Qed.

(** A list that ends with one of its elements. *)
Lemma ends_with {A : Type} (l : list A) (x : A) :
  l <> [] -> last l x = x -> exists before, l = (before ++ [x])%list.
Proof.
  intros Hl Hlast. exists (removelast l).
  pose proof (app_removelast_last x Hl) as Hsplit.
  now rewrite Hlast in Hsplit.
Qed.

End MainFacts.

(* ================================================================== *)
(** ** The position of the selected tag *)
(* ================================================================== *)

Module PositionFacts.

Import JS Action Calls SortFacts CompareFacts SelectionFacts SelectionOrderFacts.

Section First.

Context {A : Type}.
Variable cmp : A -> A -> Exc Z.

#[local] Abbreviation firstLowest := (Calls.firstLowest cmp).

Lemma firstLowest_conflict (x y : A) (before rest : list A) :
  Forall (fun z => exists c, cmp z y = inr c /\ (0 < c)%Z) before ->
  Forall (notAfter cmp x) rest ->
  In x before -> In y rest -> False.
Proof.
  intros Hb Hr Hx Hy.
  rewrite Forall_forall in Hb, Hr.
  destruct (Hb x Hx) as (c & Hc & Hpos).
  destruct (Hr y Hy) as (c' & Hc' & Hneg).
  rewrite Hc in Hc'. injection Hc' as <-. lia.
Qed.

(** There is one such position. *)
Lemma firstLowest_unique (l : list A) (h h' : A) :
  firstLowest l h -> firstLowest l h' -> h = h'.
Proof.
  intros (b & r & -> & Hb & Hr) (b' & r' & Heq & Hb' & Hr').
  apply app_eq_app in Heq.
  destruct Heq as [l [[Eb Er]|[Eb Er]]]; destruct l as [|x l];
    simpl in Er; injection Er as Ex Er; try congruence; exfalso.
  - (* [h'] comes first *)
    apply (firstLowest_conflict h' h b r'); auto.
    + rewrite Eb, <- Ex. apply in_or_app. right. now left.
    + rewrite Er. apply in_or_app. right. now left.
  - (* [h] comes first *)
    apply (firstLowest_conflict h h' b' r); auto.
    + rewrite Eb, <- Ex. apply in_or_app. right. now left.
    + rewrite Er. apply in_or_app. right. now left.
Qed.

(** An element placed after [h] can be added anywhere. *)
Lemma firstLowest_add (l1 l2 : list A) (h x : A) :
  firstLowest (l1 ++ l2) h ->
  (exists c, cmp x h = inr c /\ (0 < c)%Z) ->
  notAfter cmp h x ->
  firstLowest (l1 ++ x :: l2) h.
Proof.
  intros (b & r & Heq & Hb & Hr) Hafter Hbefore.
  apply app_eq_app in Heq.
  destruct Heq as [l [[-> Heq]|[-> Heq]]].
  - (* [x] is added after [h] or just before it *)
    destruct l as [|y l]; simpl in Heq.
    + subst l2. rewrite List.app_nil_r.
      exists (b ++ [x])%list, r. rewrite <- List.app_assoc.
      split; [reflexivity|]. split; [|exact Hr].
      apply Forall_app. split; [exact Hb | now constructor].
    + injection Heq as -> ->.
      exists b, (l ++ x :: l2)%list. rewrite <- List.app_assoc.
      split; [reflexivity|]. split; [exact Hb|].
      apply Forall_app in Hr. destruct Hr as [Hl Hl2].
      apply Forall_app. split; [exact Hl | now constructor].
  - (* [x] is added before [h] *)
    subst l2. exists (l1 ++ x :: l)%list, r. rewrite <- List.app_assoc.
    split; [reflexivity|]. split; [|exact Hr].
    apply Forall_app in Hb. destruct Hb as [Hl1 Hl].
    apply Forall_app. split; [exact Hl1 | now constructor].
Qed.

End First.

Lemma filter_app_cons {A : Type} (f : A -> bool) (l b r : list A) (x : A) :
  filter f l = (b ++ x :: r)%list ->
  exists l1 l2,
    l = (l1 ++ x :: l2)%list /\ filter f l1 = b /\ filter f l2 = r.
Proof.
  revert b. induction l as [|y l IH]; intros b Heq; simpl in Heq.
  - now destruct b.
  - destruct (f y) eqn:Hy.
    + destruct b as [|z b]; simpl in Heq; injection Heq as -> Heq.
      * exists [], l. now rewrite Heq.
      * destruct (IH b Heq) as (l1 & l2 & -> & H1 & H2).
        exists (z :: l1), l2. simpl. rewrite Hy, H1. auto.
    + destruct (IH b Heq) as (l1 & l2 & -> & H1 & H2).
      exists (y :: l1), l2. simpl. rewrite Hy. auto.
Qed.

(** The selected tag is the first lowest of the versions of the listing,
    and the only one. *)
Lemma selectLatest_firstLowest (names : list string) (t : string) :
  Forall (fun name => NodeSemver.exactTag name = true) names ->
  @selectLatest nodeSemver names = inr (Some t) <->
  firstLowest NodeSemver.compare (filter isSemverName names) t.
Proof.
  intros He. split; [now apply selectLatest_first|].
  intros Hfirst.
  destruct (selectLatest_returns names) as (selected & Hsel & Hin & Hnone).
  destruct selected as [t'|].
  - rewrite Hsel. do 2 f_equal.
    apply (firstLowest_unique NodeSemver.compare (filter isSemverName names));
      [now apply selectLatest_first | exact Hfirst].
  - exfalso. destruct Hfirst as (b & r & Heq & _).
    assert (Ht : In t (filter isSemverName names))
      by (rewrite Heq; apply in_or_app; right; now left).
    apply filter_In in Ht. destruct Ht as [Ht Hv].
    apply isSemverName_valid in Hv. apply Hv.
    now apply (proj1 Hnone eq_refl).
Qed.

End PositionFacts.

(* ================================================================== *)
(** ** Runs on two listings *)
(* ================================================================== *)

Module ListingFacts.

Import JS Action Calls CompareFacts SelectionFacts SelectionOrderFacts
  PositionFacts.

Lemma bindM_ext {A B : Type} (m m' : M A) (k k' : A -> M B) (s : State) :
  m s = m' s -> (forall a s', k a s' = k' a s') ->
  bindM m k s = bindM m' k' s.
Proof.
  intros Hm Hk. unfold bindM. rewrite Hm.
  destruct (m' s) as [s' [e|a]]; [reflexivity | apply Hk].
Qed.

(** [publishGitTag] reads the client through its answers only. *)
Lemma publishGitTag_ext `{Semver} (world : World) (octokit octokit' : Octokit) :
  commits_pulls octokit' = commits_pulls octokit ->
  createRef octokit' = createRef octokit ->
  (forall s, getLatestTag octokit' s = getLatestTag octokit s) ->
  forall s, publishGitTag world octokit' s = publishGitTag world octokit s.
Proof.
  intros Hpulls Href Hlatest s. unfold publishGitTag.
  apply bindM_ext.
  { unfold pullRequestFromCommitSha, request_commits_pulls.
    now rewrite Hpulls. }
  intros pr s1. apply bindM_ext; [reflexivity|].
  intros _ s2. apply bindM_ext; [reflexivity|].
  intros bump s3. destruct (bump =? noRelease); [reflexivity|].
  apply bindM_ext; [apply Hlatest|].
  intros latestTag s4. apply bindM_ext; [reflexivity|].
  intros newTag s5. apply bindM_ext; [|reflexivity].
  unfold publishTag, rest_git_createRef. now rewrite Href.
Qed.

(** A pair of strings that [compare] compares are versions. *)
Lemma compare_valid (a b : string) (c : Z) :
  NodeSemver.compare a b = inr c ->
  NodeSemver.valid a <> None /\ NodeSemver.valid b <> None.
Proof.
  unfold NodeSemver.compare, NodeSemver.valid, bind.
  destruct (NodeSemver.new a); [discriminate|].
  destruct (NodeSemver.new b); [discriminate|].
  split; discriminate.
Qed.

Lemma filter_versions_app (l1 l2 : list string) (x : string) :
  NodeSemver.valid x <> None ->
  filter (@isSemverName nodeSemver) (l1 ++ x :: l2)
  = (filter isSemverName l1 ++ x :: filter isSemverName l2)%list.
Proof.
  intros Hx. rewrite filter_app. simpl.
  now rewrite (proj2 (isSemverName_valid x) Hx).
Qed.

(** A tag placed after the selected one can be added anywhere in the
    listing. *)
Lemma selectLatest_add (l1 l2 : list string) (x t : string) :
  Forall (fun name => NodeSemver.exactTag name = true) (l1 ++ x :: l2) ->
  @selectLatest nodeSemver (l1 ++ l2) = inr (Some t) ->
  NodeSemver.compare x t = inr 1%Z ->
  @selectLatest nodeSemver (l1 ++ x :: l2) = inr (Some t).
Proof.
  intros Hexact Hsel Hafter.
  destruct (compare_valid x t 1%Z Hafter) as [Hx Ht].
  assert (Hexact' : Forall (fun name => NodeSemver.exactTag name = true)
                      (l1 ++ l2)).
  { apply Forall_app in Hexact. destruct Hexact as [H1 H2].
    apply Forall_app. split; [exact H1 | now inversion H2]. }
  assert (Hxe : NodeSemver.exactTag x = true).
  { apply Forall_app in Hexact. destruct Hexact as [_ H2]. now inversion H2. }
  assert (Hte : NodeSemver.exactTag t = true).
  { destruct (selectLatest_returns (l1 ++ l2)) as (selected & Hs & Hin & _).
    rewrite Hsel in Hs. injection Hs as <-.
    destruct (Hin t eq_refl) as [Hin' _].
    rewrite Forall_forall in Hexact'. now apply Hexact'. }
  apply (selectLatest_firstLowest _ _ Hexact).
  rewrite (filter_versions_app _ _ _ Hx).
  apply firstLowest_add.
  - rewrite <- filter_app. now apply (selectLatest_firstLowest _ _ Hexact').
  - exists 1%Z. split; [exact Hafter | lia].
  - exists (-1)%Z. split; [|lia].
    now apply (compare_antisym x t 1%Z).
Qed.

End ListingFacts.

(* ================================================================== *)
(** ** What the [try] block throws *)
(* ================================================================== *)

Module ErrorFacts.

Import JS Action Calls LabelFacts.

Section Errors.

Context {A B : Type}.

Lemma errors_ret (a : A) : failsWithErrors (ret a).
Proof. intros s e. discriminate. Qed.

Lemma errors_raise (message : string) :
  failsWithErrors (@raise A (Error message)).
Proof. intros s e [= <-]. reflexivity. Qed.

Lemma errors_lift (x : Exc A) : throwsErrors x -> failsWithErrors (lift x).
Proof. intros Hx s. exact Hx. Qed.

Lemma errors_bind (m : M A) (k : A -> M B) :
  failsWithErrors m -> (forall a, failsWithErrors (k a)) ->
  failsWithErrors (bindM m k).
Proof.
  intros Hm Hk s e. unfold bindM.
  pose proof (Hm s) as Hs. destruct (m s) as [s' [e'|a]]; simpl in *.
  - intros [= <-]. now apply Hs.
  - apply Hk.
Qed.

End Errors.

Lemma errors_emit (e : Event) : failsWithErrors (emit e).
Proof. intros s e'. discriminate. Qed.

(** Closes the goals [failsWithErrors m] for the straight-line parts of a
    computation. *)
Ltac errors :=
  repeat first
    [ apply errors_ret | apply errors_raise | apply errors_emit
    | apply errors_lift; assumption
    | apply errors_bind; [| intros ?] ].

(** What [main.ts] throws itself is an [Error]. *)
Lemma throwsErrors_validatePullRequestLabel (pr : PullRequest) :
  throwsErrors (validatePullRequestLabel pr).
Proof.
  rewrite validatePullRequestLabel_count.
  destruct (length (filter isValidLabel (labels pr))) as [|[|n]];
    intros e; try discriminate; intros [= <-]; reflexivity.
Qed.

Lemma throwsErrors_bumpOf (pr : PullRequest) : throwsErrors (bumpOf pr).
Proof.
  unfold bumpOf. destruct (filter isValidLabel (labels pr)); intros e;
    try discriminate. intros [= <-]. reflexivity.
Qed.

Lemma throwsErrors_incrementTag `{Semver} (tag bump : string) :
  throwsErrors (incrementTag tag bump).
Proof.
  unfold incrementTag. destruct (inc tag bump); intros e; try discriminate.
  intros [= <-]. reflexivity.
Qed.

(** A sort throws what its comparator throws. *)
Section Sort.

Context {A : Type}.
Variable cmp : A -> A -> Exc Z.
Hypothesis cmp_errors : forall a b, throwsErrors (cmp a b).

Lemma throwsErrors_insert (x : A) (l : list A) : throwsErrors (insert cmp x l).
Proof.
  induction l as [|y l IH]; simpl; intros e; [discriminate|].
  unfold bind. pose proof (cmp_errors x y) as Hc.
  destruct (cmp x y) as [e'|c].
  - intros [= <-]. now apply Hc.
  - destruct (c <=? 0)%Z; [discriminate|].
    destruct (insert cmp x l) as [e'|r]; [|discriminate].
    intros [= <-]. now apply IH.
Qed.

Lemma throwsErrors_sort (l : list A) : throwsErrors (sort cmp l).
Proof.
  induction l as [|x l IH]; simpl; intros e; [discriminate|].
  unfold bind. destruct (sort cmp l) as [e'|r].
  - intros [= <-]. now apply IH.
  - apply throwsErrors_insert.
Qed.

End Sort.

(** The functions of [main.ts] throw instances of [Error] when the client
    and [semver.compare] do. *)
Section Client.

Context {semver : Semver}.
Variable world : World.
Variable octokit : Octokit.
Hypothesis compare_errors : forall a b, throwsErrors (compare a b).
Hypothesis octokit_errors : rejectsWithErrors octokit.

Lemma errors_pullRequestFromCommitSha :
  failsWithErrors (pullRequestFromCommitSha world octokit).
Proof.
  destruct octokit_errors as (Hpulls & _).
  unfold pullRequestFromCommitSha, request_commits_pulls.
  apply errors_bind.
  { apply errors_bind; [apply errors_emit|]. intros _.
    apply errors_lift, Hpulls. }
  intros prList.
  destruct (length prList =? 0)%nat; [errors|].
  destruct (negb (length prList =? 1)%nat); [errors|].
  destruct prList; errors.
Qed.

Lemma errors_getLatestTag : failsWithErrors (getLatestTag octokit).
Proof.
  destruct octokit_errors as (_ & _ & Htags & _).
  unfold getLatestTag, paginate_listTags.
  apply errors_bind; [errors|]. intros tagsList.
  apply errors_bind.
  { apply errors_lift, throwsErrors_sort. intros a b. apply compare_errors. }
  intros sorted.
  destruct (length sorted =? 0)%nat; [errors|]. destruct sorted; errors.
Qed.

Lemma errors_publishTag (tag : string) :
  failsWithErrors (publishTag world octokit tag).
Proof.
  destruct octokit_errors as (_ & _ & _ & Href).
  unfold publishTag, core_info, rest_git_createRef.
  apply errors_bind; [apply errors_emit|]. intros _.
  apply errors_bind; [apply errors_emit|]. intros _.
  apply errors_lift, Href.
Qed.

Lemma errors_publishGitTag : failsWithErrors (publishGitTag world octokit).
Proof.
  unfold publishGitTag.
  apply errors_bind; [apply errors_pullRequestFromCommitSha|]. intros pr.
  apply errors_bind;
    [apply errors_lift, throwsErrors_validatePullRequestLabel|]. intros _.
  apply errors_bind; [apply errors_lift, throwsErrors_bumpOf|]. intros bump.
  destruct (bump =? noRelease).
  - unfold core_info. errors.
  - apply errors_bind; [apply errors_getLatestTag|]. intros latestTag.
    apply errors_bind.
    { destruct latestTag; [apply errors_lift, throwsErrors_incrementTag
                          | apply errors_ret]. }
    intros newTag.
    apply errors_bind; [apply errors_publishTag|]. intros _. errors.
Qed.

End Client.

Lemma errors_tryBlock `{Semver} (world : World) :
  (forall a b, throwsErrors (compare a b)) ->
  errorsOnly world ->
  failsWithErrors (tryBlock world).
Proof.
  intros Hcompare Hworld. unfold errorsOnly in Hworld. unfold tryBlock.
  intros s e. unfold bindM at 1, lift at 1.
  destruct (getOctokit world (getInput world "github_token"))
    as [e'|octokit]; simpl.
  { intros [= <-]. exact Hworld. }
  revert s e. change (failsWithErrors
    match payload_pull_request (context world) with
    | Some pull_number =>
        bindM (rest_pulls_get octokit pull_number)
          (fun pr => lift (validatePullRequestLabel pr))
    | None =>
        bindM (publishGitTag world octokit)
          (fun newTag => core_setOutput "tag" newTag)
    end).
  destruct (payload_pull_request (context world)) as [pull_number|].
  - destruct Hworld as (_ & Hget & _).
    unfold rest_pulls_get.
    apply errors_bind.
    { apply errors_bind; [apply errors_emit|]. intros _.
      apply errors_lift, Hget. }
    intros pr. apply errors_lift, throwsErrors_validatePullRequestLabel.
  - apply errors_bind; [now apply errors_publishGitTag|].
    intros newTag. apply errors_emit.
Qed.

(** [semver.compare] throws a [TypeError], which is an [Error]. *)
Lemma throwsErrors_new (version : string) :
  throwsErrors (NodeSemver.new version).
Proof.
  unfold NodeSemver.new, throw, ok.
  repeat match goal with
         | |- throwsErrors (if ?b then _ else _) => destruct b
         | |- throwsErrors (match ?x with Some _ => _ | None => _ end) =>
             destruct x
         end;
    intros e; try discriminate; intros [= <-]; reflexivity.
Qed.

Lemma throwsErrors_compare (a b : string) :
  throwsErrors (@compare nodeSemver a b).
Proof.
  simpl. unfold NodeSemver.compare, bind.
  pose proof (throwsErrors_new a) as Ha. pose proof (throwsErrors_new b) as Hb.
  destruct (NodeSemver.new a) as [e|x]; [intros e' [= <-]; now apply Ha|].
  destruct (NodeSemver.new b) as [e|y]; [intros e' [= <-]; now apply Hb|].
  intros e. discriminate.
Qed.

End ErrorFacts.

Module Claims_Label.

Import JS Action ListFacts LabelFacts DecisionFacts.

(** C2.  A pull request with exactly one release label passes validation,
    and that label is the bump of the release decision: on a merge whose
    commit has that pull request, [publishGitTag] goes on after the
    pull-request query as its body does with [bump] bound to the name of
    that label, skipping on [no-release] and otherwise incrementing the
    latest tag by it.  With no release label validation fails with the
    missing-label error, with two or more with the ambiguous-label error.
    Labels that are not release labels change neither the validation, nor
    the bump, nor the run of [publishGitTag]. *)
Theorem label_validation_by_cardinality (pr : PullRequest) :
  (releaseLabelCount pr = 1 ->
     validatePullRequestLabel pr = ok tt /\
     exists it, filter isValidLabel (labels pr) = [it] /\
                In it (labels pr) /\ In (Label.name it) validLabels /\
                bumpOf pr = ok (Label.name it) /\
                forall (semver : Semver) (world : World) (octokit : Octokit)
                       (s : State),
                  commits_pulls octokit (sha (context world)) = inr [pr] ->
                  publishGitTag world octokit s =
                  (let bump := Label.name it in
                   if bump =? noRelease then
                     core_info (noRelease ++ " label detected, skipping release") ;;
                     ret ""
                   else
                     latestTag <- getLatestTag octokit ;;
                     newTag <- match latestTag with
                               | None => ret (getInput world "initial_tag")
                               | Some latestTag =>
                                   lift (incrementTag latestTag bump)
                               end ;;
                     publishTag world octokit newTag ;;
                     ret newTag)%action
                    (after s [RequestCommitPulls (sha (context world))])) /\
  (releaseLabelCount pr = 0 ->
     validatePullRequestLabel pr = throw MissingLabel) /\
  (2 <= releaseLabelCount pr ->
     validatePullRequestLabel pr = throw AmbiguousLabel) /\
  validatePullRequestLabel (releaseLabelsOnly pr) = validatePullRequestLabel pr /\
  bumpOf (releaseLabelsOnly pr) = bumpOf pr /\
  (forall (semver : Semver) (world : World) (octokit : Octokit) (s : State),
     publishGitTag world (withPulls octokit [releaseLabelsOnly pr]) s =
     publishGitTag world (withPulls octokit [pr]) s).
Proof.
  repeat split.
  - rewrite validatePullRequestLabel_count. unfold releaseLabelCount in H.
    now rewrite H.
  - unfold releaseLabelCount in H. unfold bumpOf.
    destruct (filter isValidLabel (labels pr)) as [|it [|it' l]] eqn:E;
      try discriminate.
    exists it.
    assert (Hin : In it (filter isValidLabel (labels pr)))
      by (rewrite E; now left).
    apply filter_In in Hin. destruct Hin as [Hin Hv].
    split; [reflexivity|]. split; [exact Hin|].
    split; [now apply isValidLabel_iff|]. split; [reflexivity|].
    intros semver world octokit s Hprs.
    exact (publishGitTag_resolved world octokit s pr it Hprs E).
  - intros H. rewrite validatePullRequestLabel_count.
    unfold releaseLabelCount in H. now rewrite H.
  - intros H. rewrite validatePullRequestLabel_count.
    unfold releaseLabelCount in H.
    destruct (length (filter isValidLabel (labels pr))) as [|[|n]];
      [lia | lia | reflexivity].
  - rewrite !validatePullRequestLabel_count. unfold releaseLabelsOnly. simpl.
    now rewrite filter_idempotent.
  - unfold bumpOf, releaseLabelsOnly. simpl. now rewrite filter_idempotent.
  - intros semver world octokit s.
    unfold publishGitTag, pullRequestFromCommitSha, request_commits_pulls,
      withPulls, bindM, lift, emit. simpl.
    rewrite !validatePullRequestLabel_count. unfold bumpOf, releaseLabelsOnly.
    simpl. rewrite filter_idempotent.
    destruct (length (filter isValidLabel (labels pr))) as [|[|n]];
      try reflexivity.
Qed.

(** C2 at a pull request labelled [bug] and [minor]. *)
Lemma label_validation_minor_among_others :
  validatePullRequestLabel (Examples.pullRequest ["bug"; "minor"]) = ok tt /\
  bumpOf (Examples.pullRequest ["bug"; "minor"]) = ok "minor" /\
  @publishGitTag nodeSemver
    (Examples.world (inr (Examples.octokit [] [])))
    (Examples.octokit [Examples.pullRequest ["bug"; "minor"]] ["1.4.2"])
    initial
  = ({| calls := [RequestCommitPulls "3f1c2ab"; PaginateListTags;
                  LogInfo "Tagging 3f1c2ab with tag 1.5.0";
                  CreateRef "refs/tags/1.5.0" "3f1c2ab"];
        exitCode := 0 |}, inr "1.5.0").
Proof.
  destruct (label_validation_by_cardinality
              (Examples.pullRequest ["bug"; "minor"]))
    as (Hone & _).
  destruct (Hone eq_refl) as (Hvalid & it & Hfilter & _ & _ & Hbump & Hrun).
  split; [exact Hvalid|].
  injection Hfilter as <-. split; [exact Hbump|].
  rewrite (Hrun nodeSemver
             (Examples.world (inr (Examples.octokit [] [])))
             (Examples.octokit [Examples.pullRequest ["bug"; "minor"]]
                ["1.4.2"])
             initial eq_refl).
  reflexivity.
Defined.

End Claims_Label.

Module Claims_Decision.

Import JS Action LabelFacts DecisionFacts SelectionFacts.

(** C3.  On a merge whose pull request carries [no-release] as its release
    label, [publishGitTag] returns the empty string (the skip) after the
    pull-request query and one log line: the tag listing is not queried and
    no reference is created, and the outcome is the same whatever the
    [semver] functions, the tags, the [initial_tag] input and the answer of
    the reference creation are. *)
Theorem no_release_short_circuit `{Semver} (world : World) (octokit : Octokit)
  (s : State) (pr : PullRequest) :
  commits_pulls octokit (sha (context world)) = inr [pr] ->
  map Label.name (filter isValidLabel (labels pr)) = [noRelease] ->
  let log := [RequestCommitPulls (sha (context world));
              LogInfo "no-release label detected, skipping release"] in
  publishGitTag world octokit s = (after s log, inr "") /\
  existsb isPaginateListTags log = false /\
  existsb isCreateRef log = false /\
  (forall (semver' : Semver) (world' : World) (octokit' : Octokit),
     context world' = context world ->
     commits_pulls octokit' = commits_pulls octokit ->
     @publishGitTag semver' world' octokit' s = (after s log, inr "")).
Proof.
  intros Hprs Hnames log.
  destruct (names_singleton pr noRelease Hnames) as [it [Hit Hname]].
  assert (Hskip : forall (sv : Semver) (w : World) (o : Octokit),
             context w = context world ->
             commits_pulls o = commits_pulls octokit ->
             @publishGitTag sv w o s = (after s log, inr "")).
  { intros sv w o Hctx Ho.
    rewrite (@publishGitTag_resolved sv w o s pr it);
      [| rewrite Hctx, Ho; exact Hprs | exact Hit].
    rewrite Hname, Hctx. simpl.
    unfold bindM, core_info, emit, ret, after, log. simpl.
    now rewrite <- List.app_assoc. }
  repeat split; try reflexivity.
  - now apply Hskip.
  - exact (fun sv w o => Hskip sv w o).
Qed.

(** C4.  On a merge whose pull request has the release label [it], other
    than [no-release], in a repository where no tag name is a version,
    [publishGitTag] creates the reference [refs/tags/] followed by the
    [initial_tag] input as it is, and returns that input when the creation
    succeeds; [main] then sets the output [tag] to it. *)
Theorem bootstrap_uses_initial_tag `{Semver} (world : World) (octokit : Octokit)
  (s : State) (pr : PullRequest) (it : Label.t) (pages : list (list Tag.t)) :
  commits_pulls octokit (sha (context world)) = inr [pr] ->
  filter isValidLabel (labels pr) = [it] ->
  Label.name it <> noRelease ->
  listTags octokit = inr pages ->
  (forall name, In name (tagNames pages) -> valid name = None) ->
  let initial_tag := getInput world "initial_tag" in
  let commit := sha (context world) in
  let log := [RequestCommitPulls commit; PaginateListTags;
              LogInfo ("Tagging " ++ commit ++ " with tag " ++ initial_tag);
              CreateRef ("refs/tags/" ++ initial_tag) commit] in
  publishGitTag world octokit s =
  (after s log,
   match createRef octokit ("refs/tags/" ++ initial_tag) commit with
   | inl e => inl e
   | inr _ => inr initial_tag
   end) /\
  (payload_pull_request (context world) = None ->
   getOctokit world (getInput world "github_token") = inr octokit ->
   createRef octokit ("refs/tags/" ++ initial_tag) commit = inr tt ->
   main world s = (after s (log ++ [SetOutput "tag" initial_tag]), inr tt)).
Proof.
  intros Hprs Hit Hbump Hpages Hnone initial_tag commit log.
  assert (Hrun :
    publishGitTag world octokit s =
    (after s log,
     match createRef octokit ("refs/tags/" ++ initial_tag) commit with
     | inl e => inl e
     | inr _ => inr initial_tag
     end)).
  { rewrite (publishGitTag_resolved world octokit s pr it Hprs Hit).
    apply String.eqb_neq in Hbump. rewrite Hbump.
    unfold bindM at 1.
    rewrite getLatestTag_selectLatest, Hpages,
      (selectLatest_no_version _ Hnone).
    unfold publishTag, core_info, rest_git_createRef, bindM, emit, lift, ret,
      after, log. simpl.
    fold initial_tag. fold commit.
    rewrite <- !List.app_assoc. simpl.
    destruct (createRef octokit _ commit) as [e|[]]; reflexivity. }
  split; [exact Hrun|].
  intros Hmerge Hokit Hcreate.
  unfold main, tryCatch, tryBlock, bindM at 1. unfold lift at 1.
  rewrite Hokit, Hmerge. unfold bindM at 1. rewrite Hrun, Hcreate.
  unfold core_setOutput, emit, after. simpl.
  now rewrite <- List.app_assoc.
Qed.

(** C5.  On a merge whose commit resolves to no pull request,
    [publishGitTag] fails with the no-associated-pull-request error, and to
    more than one, with the ambiguous one; the only call made is the
    pull-request query, [main] reports the message with [core.setFailed],
    and no reference is created. *)
Theorem unresolved_commit_fails `{Semver} (world : World) (octokit : Octokit)
  (s : State) (prs : list PullRequest) :
  commits_pulls octokit (sha (context world)) = inr prs ->
  length prs <> 1 ->
  let commit := sha (context world) in
  let failure := match prs with
                 | [] => NoAssociatedPullRequest commit
                 | _ :: _ => AmbiguousAssociatedPullRequest commit
                 end in
  let log := [RequestCommitPulls commit] in
  publishGitTag world octokit s = (after s log, inl failure) /\
  existsb isCreateRef log = false /\
  (payload_pull_request (context world) = None ->
   getOctokit world (getInput world "github_token") = inr octokit ->
   exists message,
     failure = Error message /\
     main world s = (afterFailure s (log ++ [SetFailed message]), inr tt) /\
     existsb isCreateRef (log ++ [SetFailed message]) = false).
Proof.
  intros Hprs Hlen commit failure log.
  assert (Hrun : publishGitTag world octokit s = (after s log, inl failure)).
  { unfold publishGitTag, pullRequestFromCommitSha, request_commits_pulls,
      bindM, emit, lift, raise, after. simpl.
    rewrite Hprs.
    destruct prs as [|pr [|pr' prs]]; simpl; try reflexivity. now elim Hlen. }
  repeat split; try assumption.
  intros Hmerge Hokit.
  assert (Hfail : exists message, failure = Error message)
    by (unfold failure; destruct prs; eexists; reflexivity).
  destruct Hfail as [message Hmessage]. exists message.
  repeat split; try assumption.
  unfold main, tryCatch, tryBlock, bindM at 1. unfold lift at 1.
  rewrite Hokit, Hmerge. unfold bindM at 1. rewrite Hrun, Hmessage.
  unfold catchBlock, core_setFailed, afterFailure, after, log. simpl.
  now rewrite <- List.app_assoc.
Qed.

(** C10.  On a merge whose pull request carries [no-release] as its release
    label, [main] completes without a failure report, leaves the exit code
    as it was and sets the output [tag] to the empty string. *)
Theorem no_release_sets_empty_output `{Semver} (world : World)
  (octokit : Octokit) (s : State) (pr : PullRequest) :
  payload_pull_request (context world) = None ->
  getOctokit world (getInput world "github_token") = inr octokit ->
  commits_pulls octokit (sha (context world)) = inr [pr] ->
  map Label.name (filter isValidLabel (labels pr)) = [noRelease] ->
  let log := [RequestCommitPulls (sha (context world));
              LogInfo "no-release label detected, skipping release";
              SetOutput "tag" ""] in
  main world s = (after s log, inr tt) /\
  existsb isSetFailed log = false /\
  exitCode (fst (main world s)) = exitCode s.
Proof.
  intros Hmerge Hokit Hprs Hnames log.
  destruct (names_singleton pr noRelease Hnames) as [it [Hit Hname]].
  assert (Hmain : main world s = (after s log, inr tt)).
  { unfold main, tryCatch, tryBlock, bindM at 1. unfold lift at 1.
    rewrite Hokit, Hmerge. unfold bindM at 1.
    rewrite (publishGitTag_resolved world octokit s pr it Hprs Hit), Hname.
    simpl. unfold bindM, core_info, core_setOutput, emit, ret, after, log.
    simpl. now rewrite <- !List.app_assoc. }
  repeat split; try assumption. now rewrite Hmain.
Qed.

(** C3 at a pull request labelled [no-release] in a repository tagged
    1.4.2. *)
Lemma no_release_skips_sample_repository :
  @publishGitTag nodeSemver
    (Examples.world (inr (Examples.octokit [] [])))
    (Examples.octokit [Examples.pullRequest ["no-release"]] ["1.4.2"]) initial
  = ({| calls := [RequestCommitPulls "3f1c2ab";
                  LogInfo "no-release label detected, skipping release"];
        exitCode := 0 |}, inr "").
Proof.
  exact (proj1 (@no_release_short_circuit nodeSemver
                  (Examples.world (inr (Examples.octokit [] [])))
                  (Examples.octokit [Examples.pullRequest ["no-release"]]
                     ["1.4.2"])
                  initial (Examples.pullRequest ["no-release"])
                  eq_refl eq_refl)).
Defined.

(** C4 at a pull request labelled [minor] in a repository without tags and
    with [initial_tag] set to 0.1.0. *)
Lemma bootstrap_sample_repository :
  @publishGitTag nodeSemver
    (Examples.world (inr (Examples.octokit [] [])))
    (Examples.octokit [Examples.pullRequest ["minor"]] []) initial
  = ({| calls := [RequestCommitPulls "3f1c2ab"; PaginateListTags;
                  LogInfo "Tagging 3f1c2ab with tag 0.1.0";
                  CreateRef "refs/tags/0.1.0" "3f1c2ab"];
        exitCode := 0 |}, inr "0.1.0").
Proof.
  refine (proj1 (@bootstrap_uses_initial_tag nodeSemver
            (Examples.world (inr (Examples.octokit [] [])))
            (Examples.octokit [Examples.pullRequest ["minor"]] []) initial
            (Examples.pullRequest ["minor"]) (Label.Build_t "minor") [[]]
            eq_refl eq_refl _ eq_refl _)).
  - discriminate.
  - intros name [].
Defined.

(** C5 at a commit with no pull request. *)
Lemma unresolved_commit_sample_repository :
  @publishGitTag nodeSemver
    (Examples.world (inr (Examples.octokit [] ["1.4.2"])))
    (Examples.octokit [] ["1.4.2"]) initial
  = ({| calls := [RequestCommitPulls "3f1c2ab"]; exitCode := 0 |},
     inl (NoAssociatedPullRequest "3f1c2ab")).
Proof.
  refine (proj1 (@unresolved_commit_fails nodeSemver
                   (Examples.world (inr (Examples.octokit [] ["1.4.2"])))
                   (Examples.octokit [] ["1.4.2"]) initial [] eq_refl _)).
  discriminate.
Defined.

(** C10 at a pull request labelled [no-release] in a repository tagged
    1.4.2. *)
Lemma no_release_output_sample_repository :
  @main nodeSemver
    (Examples.world
       (inr (Examples.octokit [Examples.pullRequest ["no-release"]] ["1.4.2"])))
    initial
  = ({| calls := [RequestCommitPulls "3f1c2ab";
                  LogInfo "no-release label detected, skipping release";
                  SetOutput "tag" ""];
        exitCode := 0 |}, inr tt).
Proof.
  exact (proj1 (@no_release_sets_empty_output nodeSemver
                  (Examples.world
                     (inr (Examples.octokit
                             [Examples.pullRequest ["no-release"]] ["1.4.2"])))
                  (Examples.octokit [Examples.pullRequest ["no-release"]]
                     ["1.4.2"])
                  initial (Examples.pullRequest ["no-release"])
                  eq_refl eq_refl eq_refl eq_refl)).
Defined.

End Claims_Decision.

Module Claims_Boundary.

Import JS Action Calls BoundaryFacts ErrorFacts.

(** C9.  [main] never throws, and every failure of a run is reported once.
    The collaborators throw instances of [Error]: [github.getOctokit] and
    the requests of its client, and [semver.compare].  Then the [try] block
    makes its calls without reporting a failure or touching the exit code,
    and whatever it throws is an [Error]; [main] catches it, adds exactly
    one failure report, whose message is the message of that error, sets
    the exit code to 1 and returns.  When the [try] block returns, [main]
    adds nothing. *)
Theorem main_failure_report `{Semver} (world : World) (s : State) :
  (forall a b, throwsErrors (compare a b)) ->
  errorsOnly world ->
  exists log,
    fst (tryBlock world s) = after s log /\
    existsb isSetFailed log = false /\
    match snd (tryBlock world s) with
    | inl e =>
        exists message,
          e = Error message /\
          main world s = (afterFailure s (log ++ [SetFailed message]), inr tt) /\
          count isSetFailed (log ++ [SetFailed message]) = 1
    | inr _ => main world s = (after s log, inr tt)
    end.
Proof.
  intros Hcompare Hworld.
  destruct (quiet_tryBlock world s) as [log [Hlog Hquiet]].
  exists log. repeat split; try assumption.
  pose proof (errors_tryBlock world Hcompare Hworld s) as Herror.
  unfold main, tryCatch.
  destruct (tryBlock world s) as [s' [e|[]]]; simpl in *; subst s'.
  - specialize (Herror e eq_refl). destruct e as [message|v];
      [|discriminate].
    exists message. split; [reflexivity|]. split.
    + unfold core_setFailed, afterFailure, after. simpl.
      now rewrite List.app_assoc.
    + unfold count. rewrite filter_app, length_app. simpl.
      induction log as [|x log IH]; [reflexivity|].
      simpl in Hquiet. apply orb_false_iff in Hquiet.
      destruct Hquiet as [Hx Hrest]. simpl. rewrite Hx. now apply IH.
  - reflexivity.
Qed.

(** C9 at a repository whose requests are rejected for bad credentials. *)
Lemma rejected_credentials_are_reported :
  @main nodeSemver
    (Examples.world (inr (Examples.rejecting (Error "Bad credentials"))))
    initial
  = ({| calls := [RequestCommitPulls "3f1c2ab"; SetFailed "Bad credentials"];
        exitCode := 1 |}, inr tt).
Proof.
  destruct (@main_failure_report nodeSemver
              (Examples.world
                 (inr (Examples.rejecting (Error "Bad credentials"))))
              initial throwsErrors_compare)
    as (log & Hlog & _ & Hmain).
  - repeat split; intros; intros e [= <-]; reflexivity.
  - vm_compute in Hlog. injection Hlog as <-.
    destruct Hmain as (message & Hmessage & Hmain & _).
    injection Hmessage as <-. exact Hmain.
Defined.

End Claims_Boundary.

Module Claims_Selection.

Import JS Action ListFacts SortFacts CompareFacts SelectionFacts
  SelectionOrderFacts.

(** C1.  For the listing 1.2.3, 1.3.0, v-bad, 2.0.0 [getLatestTag] returns
    1.2.3, although 2.0.0 is a version of the listing and 1.2.3 compares
    below it: the sort is ascending and the first element is taken. *)
Theorem latest_tag_of_sample_listing :
  @getLatestTag nodeSemver
    (Examples.octokit [] ["1.2.3"; "1.3.0"; "v-bad"; "2.0.0"]) initial
  = ({| calls := [PaginateListTags]; exitCode := 0 |}, inr (Some "1.2.3")) /\
  NodeSemver.valid "2.0.0" = Some "2.0.0" /\
  NodeSemver.compare "1.2.3" "2.0.0" = inr (-1)%Z.
Proof. repeat split; vm_compute; reflexivity. Qed.


(** Numeric pre-release identifiers of [MAX_SAFE_INTEGER] or more are
    compared as rounded doubles, and the comparison stops at the first pair
    of different identifiers: the three tags below compare equal, equal and
    below, and two orders of them select tags that do not compare equal. *)
Lemma inexact_identifiers_order :
  let x := "1.0.0-9007199254740993.a" in
  let y := "1.0.0-9007199254740992.b" in
  let z := "1.0.0-9007199254740993.b" in
  NodeSemver.compare x y = inr 0%Z /\
  NodeSemver.compare y z = inr 0%Z /\
  NodeSemver.compare x z = inr (-1)%Z /\
  snd (@getLatestTag nodeSemver (Examples.octokit [] [x; y; z]) initial)
  = inr (Some x) /\
  snd (@getLatestTag nodeSemver (Examples.octokit [] [z; y; x]) initial)
  = inr (Some z).
Proof. repeat split; vm_compute; reflexivity. Qed.


(** C7.  [getLatestTag] returns, never throws, whatever names the listing
    holds; the result is the one for the listing with the names that are
    not versions removed, a selected tag is a version of the listing, and
    the result is none exactly when no name of the listing is a version. *)
Theorem invalid_tags_are_dropped (octokit : Octokit) (s : State)
  (pages : list (list Tag.t)) :
  listTags octokit = inr pages ->
  exists selected,
    @getLatestTag nodeSemver octokit s
    = (after s [PaginateListTags], inr selected) /\
    @getLatestTag nodeSemver
      (withTags octokit [filter isSemverTag (concat pages)]) s
    = (after s [PaginateListTags], inr selected) /\
    (forall t, selected = Some t ->
               In t (tagNames pages) /\ NodeSemver.valid t <> None) /\
    (selected = None <->
     forall name, In name (tagNames pages) -> NodeSemver.valid name = None).
Proof.
  intros Hpages.
  destruct (selectLatest_returns (tagNames pages))
    as [selected (Hsel & Hsome & Hnone)].
  exists selected. rewrite !getLatestTag_selectLatest, Hpages. simpl listTags.
  repeat split; try assumption; try (now apply Hsome); try (now apply Hnone).
  - now rewrite Hsel.
  - unfold tagNames. simpl concat. rewrite List.app_nil_r.
    rewrite <- filter_names, selectLatest_filter. now rewrite <- Hsel.
Qed.


(** C7 at the listing 1.2.3, 1.3.0, v-bad, 2.0.0. *)
Lemma invalid_tag_of_sample_listing_dropped :
  exists selected,
    @getLatestTag nodeSemver
      (Examples.octokit [] ["1.2.3"; "1.3.0"; "v-bad"; "2.0.0"]) initial
    = (after initial [PaginateListTags], inr selected) /\
    @getLatestTag nodeSemver
      (Examples.octokit [] ["1.2.3"; "1.3.0"; "2.0.0"]) initial
    = (after initial [PaginateListTags], inr selected) /\
    selected <> Some "v-bad".
Proof.
  destruct (invalid_tags_are_dropped
              (Examples.octokit [] ["1.2.3"; "1.3.0"; "v-bad"; "2.0.0"])
              initial
              [map Examples.tag ["1.2.3"; "1.3.0"; "v-bad"; "2.0.0"]]
              eq_refl)
    as (selected & Hrun & Hfiltered & Hsome & _).
  exists selected. split; [exact Hrun|]. split; [exact Hfiltered|].
  intros E. destruct (Hsome "v-bad" E) as [_ Hvalid].
  apply Hvalid. reflexivity.
Defined.

End Claims_Selection.

Module Claims_Increment.

Import JS Action CompareFacts IncrementFacts.

(** C8 as stated fails: 1.0.0-5 is a version, and [major] bumps it to
    1.0.0, which has the major component of the base. *)
Lemma increment_of_prerelease_keeps_major :
  exists v v',
    NodeSemver.new "1.0.0-5" = inr v /\
    @incrementTag nodeSemver "1.0.0-5" major = inr "1.0.0" /\
    NodeSemver.new "1.0.0" = inr v' /\
    NodeSemver.major v' = NodeSemver.major v.
Proof.
  do 2 eexists. repeat split; vm_compute; reflexivity.
Qed.

(** At the largest major number the bump leaves the versions: the result is
    no version, and [semver.compare] throws on it. *)
Lemma increment_of_largest_major :
  NodeSemver.valid "9007199254740991.0.0" = Some "9007199254740991.0.0" /\
  @incrementTag nodeSemver "9007199254740991.0.0" major
  = inr "9007199254740992.0.0" /\
  NodeSemver.valid "9007199254740992.0.0" = None /\
  NodeSemver.compare "9007199254740992.0.0" "9007199254740991.0.0"
  = inl (Error "Invalid major version").
Proof. repeat split; vm_compute; reflexivity. Qed.

(** C8.  For a version [tag], with or without a pre-release part, and a
    bump among [patch], [minor] and [major], [incrementTag] returns the
    printed version [v'] that the increment computes.  It has no
    pre-release part, the components more significant than the targeted one
    are those of the base and the less significant ones are zero.  The
    targeted component is one more than in the base, except when the base
    is a pre-release of that very release (it has a pre-release part and
    its less significant components are zero): then it is the one of the
    base.  When the components of [v'] do not exceed [MAX_SAFE_INTEGER],
    [semver.compare] places it strictly after the base. *)
Theorem increment_of_version (tag bump : string) (v : NodeSemver.SemVer) :
  NodeSemver.new tag = inr v ->
  In bump [patch; minor; major] ->
  exists v',
    NodeSemver.incSemVer v bump = inr v' /\
    @incrementTag nodeSemver tag bump = inr (NodeSemver.format v') /\
    NodeSemver.prerelease v' = [] /\
    (bump = major ->
     NodeSemver.minor v' = 0%N /\ NodeSemver.patch v' = 0%N /\
     (NodeSemver.prerelease v = [] \/ NodeSemver.minor v <> 0%N
      \/ NodeSemver.patch v <> 0%N ->
      NodeSemver.major v' = (NodeSemver.major v + 1)%N) /\
     (NodeSemver.prerelease v <> [] -> NodeSemver.minor v = 0%N ->
      NodeSemver.patch v = 0%N ->
      NodeSemver.major v' = NodeSemver.major v)) /\
    (bump = minor ->
     NodeSemver.major v' = NodeSemver.major v /\ NodeSemver.patch v' = 0%N /\
     (NodeSemver.prerelease v = [] \/ NodeSemver.patch v <> 0%N ->
      NodeSemver.minor v' = (NodeSemver.minor v + 1)%N) /\
     (NodeSemver.prerelease v <> [] -> NodeSemver.patch v = 0%N ->
      NodeSemver.minor v' = NodeSemver.minor v)) /\
    (bump = patch ->
     NodeSemver.major v' = NodeSemver.major v /\
     NodeSemver.minor v' = NodeSemver.minor v /\
     (NodeSemver.prerelease v = [] ->
      NodeSemver.patch v' = (NodeSemver.patch v + 1)%N) /\
     (NodeSemver.prerelease v <> [] ->
      NodeSemver.patch v' = NodeSemver.patch v)) /\
    ((NodeSemver.major v' <= NodeSemver.MAX_SAFE_INTEGER)%N /\
     (NodeSemver.minor v' <= NodeSemver.MAX_SAFE_INTEGER)%N /\
     (NodeSemver.patch v' <= NodeSemver.MAX_SAFE_INTEGER)%N ->
     NodeSemver.compare (NodeSemver.format v') tag = inr 1%Z).
Proof.
  intros Hnew Hbump.
  assert (Hinc : exists v', NodeSemver.incSemVer v bump = inr v').
  { destruct Hbump as [<-|[<-|[<-|[]]]]; eexists; reflexivity. }
  destruct Hinc as [v' Hinc]. exists v'.
  assert (Hpre : NodeSemver.prerelease v' = []).
  { destruct Hbump as [<-|[<-|[<-|[]]]]; injection Hinc as <-; reflexivity. }
  split; [exact Hinc|]. split.
  { unfold incrementTag. simpl. unfold NodeSemver.inc.
    rewrite Hnew. simpl. now rewrite Hinc. }
  split; [exact Hpre|].
  split; [|split; [|split]]; try (intros ->; injection Hinc as <-; simpl;
    destruct (NodeSemver.prerelease v) as [|x p]; simpl;
    destruct (N.eqb_spec (NodeSemver.minor v) 0);
    destruct (N.eqb_spec (NodeSemver.patch v) 0); simpl;
    repeat split; intros; try reflexivity; try congruence;
    intuition congruence).
  intros (Hmajor & Hminor & Hpatch).
  rewrite (format_release v' Hpre).
  pose proof (new_mainVersion _ _ _ Hmajor Hminor Hpatch) as Hnew'.
  rewrite (compare_new _ _ _ _ Hnew' Hnew), (compareSemVer_new _ _ _ _ Hnew' Hnew).
  f_equal. unfold NodeSemver.compareMain, NodeSemver.comparePre. simpl.
  destruct Hbump as [<-|[<-|[<-|[]]]]; injection Hinc as <-; simpl.
  - (* patch *)
    rewrite !compareIdentifiers_same.
    destruct (NodeSemver.prerelease v) as [|x p]; simpl.
    + now rewrite compareIdentifiers_succ.
    + now rewrite compareIdentifiers_same.
  - (* minor *)
    rewrite compareIdentifiers_same.
    destruct (N.eqb_spec (NodeSemver.patch v) 0) as [Ep|Np]; simpl.
    + destruct (NodeSemver.prerelease v) as [|x p]; simpl.
      * now rewrite compareIdentifiers_succ.
      * now rewrite Ep, !compareIdentifiers_same.
    + now rewrite compareIdentifiers_succ.
  - (* major *)
    destruct (N.eqb_spec (NodeSemver.minor v) 0) as [Em|Nm]; simpl.
    + destruct (N.eqb_spec (NodeSemver.patch v) 0) as [Ep|Np]; simpl.
      * destruct (NodeSemver.prerelease v) as [|x p]; simpl.
        -- now rewrite compareIdentifiers_succ.
        -- now rewrite Em, Ep, !compareIdentifiers_same.
      * now rewrite compareIdentifiers_succ.
    + now rewrite compareIdentifiers_succ.
Qed.

(** C8 at the tag 1.4.2 and the bump [major]: the new tag is 2.0.0, placed
    after 1.4.2, and a merge labelled [major] in a repository tagged 1.4.2
    publishes it. *)
Lemma increment_sample_tag :
  @incrementTag nodeSemver "1.4.2" major = inr "2.0.0" /\
  NodeSemver.compare "2.0.0" "1.4.2" = inr 1%Z /\
  snd (@publishGitTag nodeSemver
         (Examples.world (inr (Examples.octokit [] [])))
         (Examples.octokit [Examples.pullRequest ["major"]] ["1.4.2"]) initial)
  = inr "2.0.0".
Proof.
  destruct (increment_of_version "1.4.2" major
              {| NodeSemver.major := 1; NodeSemver.minor := 4;
                 NodeSemver.patch := 2; NodeSemver.prerelease := [];
                 NodeSemver.build := [] |}
              eq_refl (or_intror (or_intror (or_introl eq_refl))))
    as (v' & Hinc & Htag & _ & _ & _ & _ & Hgreater).
  injection Hinc as <-.
  split; [exact Htag|]. split; [|reflexivity].
  apply Hgreater. repeat split; vm_compute; discriminate.
Defined.

End Claims_Increment.

(* ================================================================== *)
(** * Part III: further properties of [main.ts] *)
(* ================================================================== *)

Module PullRequests.

Import JS Action Calls LabelFacts RunFacts MainFacts.

(** X1.  [pullRequestFromCommitSha] makes one call, the query of the pull
    requests of the commit of the event, whatever the answer is.  It
    returns a pull request exactly when the answer is a list of one pull
    request, and that one is returned; a rejected query is thrown on
    unchanged. *)
Theorem pull_request_resolution (world : World) (octokit : Octokit)
  (s : State) :
  let commit := sha (context world) in
  fst (pullRequestFromCommitSha world octokit s)
  = after s [RequestCommitPulls commit] /\
  (forall pr, snd (pullRequestFromCommitSha world octokit s) = inr pr <->
              commits_pulls octokit commit = inr [pr]) /\
  (forall e, commits_pulls octokit commit = inl e ->
             snd (pullRequestFromCommitSha world octokit s) = inl e).
Proof.
  intros commit.
  unfold pullRequestFromCommitSha, request_commits_pulls, bindM, emit, lift,
    raise, ret, after. simpl. fold commit.
  destruct (commits_pulls octokit commit) as [e|[|pr [|pr' prs]]]; simpl;
    (split; [reflexivity|]); split; intros; try split; intros;
    try discriminate; congruence.
Qed.

(** X2.  On a merge whose commit has one pull request, a pull request that
    does not carry exactly one release label stops the release:
    [publishGitTag] throws the missing-label error (no release label) or
    the ambiguous-label error (two or more) after the pull-request query,
    before the tags are listed, and [main] reports the message with
    [core.setFailed] and sets no output. *)
Theorem invalid_labels_stop_release `{Semver} (world : World)
  (octokit : Octokit) (s : State) (pr : PullRequest) :
  commits_pulls octokit (sha (context world)) = inr [pr] ->
  releaseLabelCount pr <> 1 ->
  let failure := if (releaseLabelCount pr =? 0)%nat then MissingLabel
                 else AmbiguousLabel in
  let log := [RequestCommitPulls (sha (context world))] in
  publishGitTag world octokit s = (after s log, inl failure) /\
  (payload_pull_request (context world) = None ->
   getOctokit world (getInput world "github_token") = inr octokit ->
   exists message,
     failure = Error message /\
     main world s = (afterFailure s (log ++ [SetFailed message]), inr tt) /\
     count isPaginateListTags (log ++ [SetFailed message]) = 0 /\
     count isCreateRef (log ++ [SetFailed message]) = 0 /\
     count isSetOutput (log ++ [SetFailed message]) = 0).
Proof.
  intros Hprs Hcount failure log.
  pose proof (publishGitTag_invalid world octokit s pr Hprs Hcount) as Hrun.
  split; [exact Hrun|].
  intros Hevent Hclient.
  pose proof (main_merge world octokit s _ _ Hclient Hevent Hrun) as Hmain.
  unfold failure, MissingLabel, AmbiguousLabel in *.
  destruct (releaseLabelCount pr =? 0)%nat; eexists;
    (split; [reflexivity|]); (split; [exact Hmain|]); repeat split.
Qed.

Lemma unlabelled_pull_request_stops_release :
  @main nodeSemver
    (Examples.world
       (inr (Examples.octokit [Examples.pullRequest ["bug"]] ["1.4.2"])))
    initial
  = ({| calls := [RequestCommitPulls "3f1c2ab";
                  SetFailed "Please set one of the following label : patch, minor, major, no-release"];
        exitCode := 1 |}, inr tt).
Proof.
  destruct (@invalid_labels_stop_release nodeSemver
              (Examples.world
                 (inr (Examples.octokit [Examples.pullRequest ["bug"]]
                         ["1.4.2"])))
              (Examples.octokit [Examples.pullRequest ["bug"]] ["1.4.2"])
              initial (Examples.pullRequest ["bug"]) eq_refl
              ltac:(discriminate))
    as [_ Hmain].
  destruct (Hmain eq_refl eq_refl) as (message & Hmessage & Hrun & _).
  injection Hmessage as <-. exact Hrun.
Defined.

End PullRequests.

Module Labels.

Import JS Action LabelFacts SelectionOrderFacts.

(** X3.  The order of the labels of a pull request does not matter: two
    pull requests whose labels are permutations of each other pass or fail
    [validatePullRequestLabel] alike, with the same error, and when they
    pass, the bump that [publishGitTag] reads is the same. *)
Theorem label_order_is_irrelevant (pr pr' : PullRequest) :
  Permutation (labels pr) (labels pr') ->
  validatePullRequestLabel pr' = validatePullRequestLabel pr /\
  (validatePullRequestLabel pr = ok tt -> bumpOf pr' = bumpOf pr).
Proof.
  intros Hperm.
  pose proof (filter_permutation isValidLabel _ _ Hperm) as Hfilter.
  pose proof (Permutation_length Hfilter) as Hlength.
  split.
  - now rewrite !validatePullRequestLabel_count, Hlength.
  - rewrite validatePullRequestLabel_count. unfold bumpOf.
    destruct (filter isValidLabel (labels pr)) as [|it [|it' l]];
      try discriminate.
    intros _. apply Permutation_length_1_inv in Hfilter. now rewrite Hfilter.
Qed.

Lemma label_order_of_sample_pull_request :
  validatePullRequestLabel (Examples.pullRequest ["minor"; "bug"])
  = validatePullRequestLabel (Examples.pullRequest ["bug"; "minor"]) /\
  bumpOf (Examples.pullRequest ["minor"; "bug"])
  = bumpOf (Examples.pullRequest ["bug"; "minor"]).
Proof.
  destruct (label_order_is_irrelevant
              (Examples.pullRequest ["bug"; "minor"])
              (Examples.pullRequest ["minor"; "bug"])
              (perm_swap _ _ _))
    as [Hvalid Hbump].
  split; [exact Hvalid | exact (Hbump eq_refl)].
Defined.

End Labels.

Module Runs.

Import JS Action Calls LabelFacts DecisionFacts CompareFacts SelectionFacts
  RunFacts IncrementRunFacts.

(** X4.  The calls of every run of [publishGitTag], whatever the event, the
    client's answers and the [semver] functions are: the pull-request query
    is made once, the tags are listed at most once, at most one reference is
    created, and neither an output nor a failure is set.  A reference is
    created only as the last call, after the tag listing and the log line
    of the tag, at the commit of the event and under [refs/tags/]; the run
    then returns that tag if the creation succeeds and throws its rejection
    otherwise.  A returned tag is the empty string of the skip, after which
    nothing else was called, or a tag whose reference was created. *)
Theorem publish_discipline `{Semver} (world : World) (octokit : Octokit)
  (s : State) :
  let commit := sha (context world) in
  exists log result,
    publishGitTag world octokit s = (after s log, result) /\
    count isRequestCommitPulls log = 1 /\
    count isPaginateListTags log <= 1 /\
    count isCreateRef log <= 1 /\
    count isSetOutput log = 0 /\
    count isSetFailed log = 0 /\
    (forall ref target, In (CreateRef ref target) log ->
       target = commit /\
       (exists before, log = (before ++ [CreateRef ref target])%list /\
                       In PaginateListTags before) /\
       exists tag,
         ref = tagRef tag /\ In (LogInfo (tagging commit tag)) log /\
         result = match createRef octokit ref target with
                  | inl e => inl e
                  | inr _ => inr tag
                  end) /\
    (forall tag, result = inr tag ->
       (log = [RequestCommitPulls commit; LogInfo skipping] /\ tag = "") \/
       (In (CreateRef (tagRef tag) commit) log /\
        createRef octokit (tagRef tag) commit = inr tt)).
Proof.
  intros commit.
  destruct (publishGitTag_outcome world octokit s)
    as (log & result & Hrun & Hout).
  exists log, result. split; [exact Hrun|]. fold commit in Hout.
  destruct Hout as [e| |e|tag0]; unfold count; simpl;
    repeat (split; [lia|]); split.
  - intros ref target [|[]]; discriminate.
  - discriminate.
  - intros ref target [|[|[]]]; discriminate.
  - intros tag [= <-]. now left.
  - intros ref target [|[|[]]]; discriminate.
  - discriminate.
  - intros ref target [|[|[|[[= <- <-]|[]]]]]; try discriminate.
    split; [reflexivity|]. split.
    + exists [RequestCommitPulls commit; PaginateListTags;
              LogInfo (tagging commit tag0)].
      split; [reflexivity | right; now left].
    + exists tag0. split; [reflexivity|]. split; [|reflexivity].
      right. right. now left.
  - intros tag Hresult. right.
    destruct (createRef octokit (tagRef tag0) commit) as [e|[]] eqn:Href;
      [discriminate|]. injection Hresult as <-.
    split; [|exact Href]. right. right. right. now left.
Qed.

(** X5.  Once the merged pull request is resolved to a [patch], [minor] or
    [major] label and the tag listing is answered, the run does not stop
    before the reference creation: the selected tag is a version, so
    [incrementTag] does not fail on it, and without a version among the tags
    the [initial_tag] input is used.  The run asks for the reference of the
    new tag at the commit of the event and its outcome is that of the
    creation. *)
Theorem release_reaches_reference_creation (world : World) (octokit : Octokit)
  (s : State) (pr : PullRequest) (it : Label.t) (pages : list (list Tag.t)) :
  commits_pulls octokit (sha (context world)) = inr [pr] ->
  filter isValidLabel (labels pr) = [it] ->
  In (Label.name it) [patch; minor; major] ->
  listTags octokit = inr pages ->
  let commit := sha (context world) in
  exists newTag,
    match snd (@getLatestTag nodeSemver octokit s) with
    | inr (Some latestTag) =>
        NodeSemver.valid latestTag <> None /\
        @incrementTag nodeSemver latestTag (Label.name it) = inr newTag
    | inr None => newTag = getInput world "initial_tag"
    | inl _ => False
    end /\
    @publishGitTag nodeSemver world octokit s =
    (after s [RequestCommitPulls commit; PaginateListTags;
              LogInfo (tagging commit newTag);
              CreateRef (tagRef newTag) commit],
     match createRef octokit (tagRef newTag) commit with
     | inl e => inl e
     | inr _ => inr newTag
     end).
Proof.
  intros Hprs Hit Hbump Hlist commit.
  assert (Hrelease : Label.name it <> noRelease)
    by (destruct Hbump as [<-|[<-|[<-|[]]]]; discriminate).
  pose proof (publishGitTag_release world octokit s pr it Hprs Hit Hrelease)
    as Hrun. simpl in Hrun. fold commit in Hrun.
  rewrite getLatestTag_selectLatest. simpl.
  rewrite Hlist in *.
  destruct (selectLatest_returns (tagNames pages))
    as (selected & Hsel & Hvalid & _).
  rewrite Hsel in *. destruct selected as [latestTag|].
  - destruct (Hvalid latestTag eq_refl) as [_ Hversion].
    destruct (proj1 (valid_new latestTag) Hversion) as [v Hnew].
    destruct (inc_release latestTag (Label.name it) v Hnew Hbump)
      as (v' & _ & _ & Hinc).
    exists (NodeSemver.format v').
    assert (Htag : @incrementTag nodeSemver latestTag (Label.name it)
                   = inr (NodeSemver.format v'))
      by (unfold incrementTag; simpl; now rewrite Hinc).
    rewrite Htag in Hrun. auto.
  - exists (getInput world "initial_tag"). auto.
Qed.

Lemma minor_release_of_sample_repository :
  @publishGitTag nodeSemver
    (Examples.world (inr (Examples.octokit [] [])))
    (Examples.octokit [Examples.pullRequest ["minor"]] ["1.4.2"]) initial
  = ({| calls := [RequestCommitPulls "3f1c2ab"; PaginateListTags;
                  LogInfo "Tagging 3f1c2ab with tag 1.5.0";
                  CreateRef "refs/tags/1.5.0" "3f1c2ab"];
        exitCode := 0 |}, inr "1.5.0").
Proof.
  destruct (release_reaches_reference_creation
              (Examples.world (inr (Examples.octokit [] [])))
              (Examples.octokit [Examples.pullRequest ["minor"]] ["1.4.2"])
              initial (Examples.pullRequest ["minor"])
              (Label.Build_t "minor") [[Examples.tag "1.4.2"]]
              eq_refl eq_refl (or_intror (or_introl eq_refl)) eq_refl)
    as (newTag & Hselected & Hrun).
  vm_compute in Hselected. destruct Hselected as [_ Htag].
  injection Htag as <-. exact Hrun.
Defined.

End Runs.

Module Events.

Import JS Action Calls LabelFacts RunFacts MainFacts.

#[local] Ltac report :=
  match goal with
  | Hmain : main _ _ = _ |- _ =>
      rewrite Hmain, ?catchBlock_after; unfold after, afterFailure, count;
      simpl
  end.

#[local] Ltac last_call :=
  let e := fresh "e" in
  let Hin := fresh "Hin" in
  let Hflag := fresh "Hflag" in
  intros e Hin Hflag; simpl in Hin;
  repeat (destruct Hin as [<-|Hin]; [|]); try (now destruct Hin);
  try (destruct Hflag; discriminate);
  (apply ends_with; [discriminate | reflexivity]).

(** X6.  [main] returns on every event and reports once at most: its calls
    hold at most one [core.setOutput] or [core.setFailed], never both, and
    such a call is the last one; the exit code is set to 1 exactly when
    [core.setFailed] is called and is left alone otherwise; at most one
    reference is created, and an output is set only on an event that is not
    a pull-request event. *)
Theorem main_reports_once `{Semver} (world : World) (s : State) :
  exists log,
    main world s =
    ({| calls := calls s ++ log;
        exitCode := if existsb isSetFailed log then 1%Z else exitCode s |},
     inr tt) /\
    count isSetOutput log + count isSetFailed log <= 1 /\
    count isCreateRef log <= 1 /\
    (forall e, In e log -> isSetOutput e = true \/ isSetFailed e = true ->
               exists before, log = (before ++ [e])%list) /\
    (0 < count isSetOutput log ->
     payload_pull_request (context world) = None).
Proof.
  destruct (main_cases world s)
    as [(e & _ & Hmain)
       |[(octokit & n & validation & _ & _ & _ & Hmain)
        |(octokit & log & result & _ & Hevent & _ & Hout & Hmain)]].
  - destruct e as [message|v].
    + exists [SetFailed message]. report.
      split; [reflexivity|]. do 2 (split; [lia|]).
      split; [last_call | lia].
    + exists []. report.
      split; [reflexivity|]. do 2 (split; [lia|]).
      split; [intros e [] | lia].
  - destruct validation as [[message|v]|[]].
    + exists [PullsGet n; SetFailed message]. report.
      split; [reflexivity|]. do 2 (split; [lia|]).
      split; [last_call | lia].
    + exists [PullsGet n]. report.
      split; [reflexivity|]. do 2 (split; [lia|]).
      split; [last_call | lia].
    + exists [PullsGet n]. report.
      split; [reflexivity|]. do 2 (split; [lia|]).
      split; [last_call | lia].
  - destruct Hout as [e| |e|tag];
      [| |
       |destruct (createRef octokit (tagRef tag) (sha (context world)))
          as [e|[]]];
      try destruct e as [message|v];
      match type of Hmain with
      | _ = catchBlock (Error ?m) (after _ ?l) => exists (l ++ [SetFailed m])%list
      | _ = catchBlock (NonError _) (after _ ?l) => exists l
      | _ = (after _ ?l, _) => exists l
      end; report;
      (split; [reflexivity|]); do 2 (split; [lia|]);
      (split; [last_call | intros _; exact Hevent]).
Qed.

(** X7.  On a pull-request event [main] only validates the labels of that
    pull request: its one request is [pulls.get] of the number of the event,
    whatever the [semver] functions and the other answers of the client are;
    it asks for no pull request of a commit, lists no tag, creates no
    reference and sets no output.  It succeeds when the pull request carries
    exactly one release label and reports the missing-label or the
    ambiguous-label message otherwise; a request rejected with an [Error] is
    reported with its message. *)
Theorem pull_request_event_only_validates `{Semver} (world : World)
  (octokit : Octokit) (s : State) (pull_number : Z) :
  getOctokit world (getInput world "github_token") = inr octokit ->
  payload_pull_request (context world) = Some pull_number ->
  main world s =
  match pulls_get octokit pull_number with
  | inr pr =>
      match releaseLabelCount pr with
      | 1 => (after s [PullsGet pull_number], inr tt)
      | 0 =>
          (afterFailure s
             [PullsGet pull_number;
              SetFailed "Please set one of the following label : patch, minor, major, no-release"],
           inr tt)
      | _ =>
          (afterFailure s
             [PullsGet pull_number; SetFailed "Exactly one label must be set"],
           inr tt)
      end
  | inl (Error message) =>
      (afterFailure s [PullsGet pull_number; SetFailed message], inr tt)
  | inl (NonError _) => (after s [PullsGet pull_number], inr tt)
  end.
Proof.
  intros Hclient Hevent.
  rewrite (main_pull_request world octokit s pull_number Hclient Hevent).
  destruct (pulls_get octokit pull_number) as [e|pr]; [reflexivity|].
  rewrite validatePullRequestLabel_count. unfold releaseLabelCount.
  destruct (length (filter isValidLabel (labels pr))) as [|[|n]]; reflexivity.
Qed.

Lemma labelled_pull_request_event_passes :
  @main nodeSemver
    (Samples.pullRequestEvent 7
       (inr (Samples.reviewing 7 (Examples.pullRequest ["bug"; "patch"]))))
    initial
  = ({| calls := [PullsGet 7]; exitCode := 0 |}, inr tt).
Proof.
  exact (@pull_request_event_only_validates nodeSemver
           (Samples.pullRequestEvent 7
              (inr (Samples.reviewing 7
                      (Examples.pullRequest ["bug"; "patch"]))))
           (Samples.reviewing 7 (Examples.pullRequest ["bug"; "patch"]))
           initial 7 eq_refl eq_refl).
Defined.

(** X8.  An output is set only for a release that went through: whenever
    [main] calls [core.setOutput], the name is [tag], the event is not a
    pull-request event, no failure is set, and the value is the tag that
    [publishGitTag] returned, which is the empty string after the log line
    of the skip or a tag whose reference [createRef] created at the commit
    of the event. *)
Theorem output_means_published `{Semver} (world : World) (s : State) :
  exists log,
    calls (fst (main world s)) = (calls s ++ log)%list /\
    forall name value, In (SetOutput name value) log ->
      name = "tag" /\
      payload_pull_request (context world) = None /\
      count isSetFailed log = 0 /\
      exists octokit,
        getOctokit world (getInput world "github_token") = inr octokit /\
        snd (publishGitTag world octokit s) = inr value /\
        ((value = "" /\ In (LogInfo skipping) log) \/
         (In (CreateRef (tagRef value) (sha (context world))) log /\
          createRef octokit (tagRef value) (sha (context world)) = inr tt)).
Proof.
  destruct (main_cases world s)
    as [(e & _ & Hmain)
       |[(octokit & n & validation & _ & _ & _ & Hmain)
        |(octokit & log & result & Hclient & Hevent & Hrun & Hout & Hmain)]].
  - destruct e as [message|v];
      [exists [SetFailed message] | exists []]; report;
      (split; [reflexivity|]); intros name value Hin; simpl in Hin;
      intuition discriminate.
  - destruct validation as [[message|v]|[]];
      [exists [PullsGet n; SetFailed message] | exists [PullsGet n]
      | exists [PullsGet n]]; report;
      (split; [reflexivity|]); intros name value Hin; simpl in Hin;
      intuition discriminate.
  - destruct Hout as [e| |e|tag];
      [| |
       |destruct (createRef octokit (tagRef tag) (sha (context world)))
          as [e|[]] eqn:Href];
      try destruct e as [message|v];
      match type of Hmain with
      | _ = catchBlock (Error ?m) (after _ ?l) => exists (l ++ [SetFailed m])%list
      | _ = catchBlock (NonError _) (after _ ?l) => exists l
      | _ = (after _ ?l, _) => exists l
      end; report;
      (split; [reflexivity|]); intros name value Hin; simpl in Hin;
      try (exfalso; intuition discriminate).
    + (* the skip *)
      destruct Hin as [|[|[[= <- <-]|[]]]]; try discriminate.
      repeat (split; [reflexivity || assumption|]).
      exists octokit. split; [assumption|].
      split; [now rewrite Hrun|].
      left. split; [reflexivity | right; now left].
    + (* the reference was created *)
      destruct Hin as [|[|[|[|[[= <- <-]|[]]]]]]; try discriminate.
      repeat (split; [reflexivity || assumption|]).
      exists octokit. split; [assumption|].
      split; [now rewrite Hrun|].
      right. split; [right; right; right; now left | exact Href].
Qed.

(** X14.  On an event that is not a pull-request event, a request that the
    client rejects with an [Error] ends the run with that message reported
    by [core.setFailed], exit code 1 and no output: the pull-request query,
    after which nothing else is asked; the tag listing, after which no
    reference is created; and the reference creation itself, for instance
    when the tag exists already. *)
Theorem rejected_request_is_reported `{Semver} (world : World)
  (octokit : Octokit) (s : State) (message : string) :
  getOctokit world (getInput world "github_token") = inr octokit ->
  payload_pull_request (context world) = None ->
  let commit := sha (context world) in
  (commits_pulls octokit commit = inl (Error message) ->
   main world s
   = (afterFailure s [RequestCommitPulls commit; SetFailed message], inr tt)) /\
  (forall pr it,
     commits_pulls octokit commit = inr [pr] ->
     filter isValidLabel (labels pr) = [it] ->
     Label.name it <> noRelease ->
     listTags octokit = inl (Error message) ->
     main world s
     = (afterFailure s [RequestCommitPulls commit; PaginateListTags;
                        SetFailed message], inr tt)) /\
  (forall log ref,
     fst (publishGitTag world octokit s) = after s log ->
     In (CreateRef ref commit) log ->
     createRef octokit ref commit = inl (Error message) ->
     main world s = (afterFailure s (log ++ [SetFailed message]), inr tt) /\
     count isSetOutput (log ++ [SetFailed message]) = 0).
Proof.
  intros Hclient Hevent commit. split; [|split].
  - intros Hprs.
    exact (main_merge world octokit s _ _ Hclient Hevent
             (publishGitTag_rejected world octokit s _ Hprs)).
  - intros pr it Hprs Hit Hrelease Hlist.
    pose proof (publishGitTag_release world octokit s pr it Hprs Hit Hrelease)
      as Hrun. simpl in Hrun. rewrite Hlist in Hrun.
    exact (main_merge world octokit s _ _ Hclient Hevent Hrun).
  - intros log ref Hlog Hin Href.
    destruct (publishGitTag_outcome world octokit s)
      as (log' & result & Hrun & Hout).
    rewrite Hrun in Hlog. simpl in Hlog.
    assert (Hsame : log' = log).
    { apply (f_equal calls) in Hlog. simpl in Hlog.
      now apply app_inv_head in Hlog. }
    subst log'. fold commit in Hout.
    destruct Hout as [e| |e|tag]; simpl in Hin;
      try (exfalso; intuition discriminate).
    destruct Hin as [|[|[|[[= <-]|[]]]]]; try discriminate.
    rewrite Href in Hrun.
    split; [exact (main_merge world octokit s _ _ Hclient Hevent Hrun)
           | reflexivity].
Qed.

Lemma existing_tag_is_reported :
  @main nodeSemver
    (Examples.world
       (inr (Samples.tagged [Examples.pullRequest ["patch"]] ["1.4.2"])))
    initial
  = ({| calls := [RequestCommitPulls "3f1c2ab"; PaginateListTags;
                  LogInfo "Tagging 3f1c2ab with tag 1.4.3";
                  CreateRef "refs/tags/1.4.3" "3f1c2ab";
                  SetFailed "Reference already exists"];
        exitCode := 1 |}, inr tt).
Proof.
  refine (proj1 (proj2 (proj2 (@rejected_request_is_reported nodeSemver
            (Examples.world
               (inr (Samples.tagged [Examples.pullRequest ["patch"]]
                       ["1.4.2"])))
            (Samples.tagged [Examples.pullRequest ["patch"]] ["1.4.2"])
            initial "Reference already exists" eq_refl eq_refl))
          [RequestCommitPulls "3f1c2ab"; PaginateListTags;
           LogInfo "Tagging 3f1c2ab with tag 1.4.3";
           CreateRef "refs/tags/1.4.3" "3f1c2ab"]
          "refs/tags/1.4.3" eq_refl _ eq_refl)).
  right. right. right. now left.
Defined.

End Events.

Module Listing.

Import JS Action Calls SelectionFacts SelectionOrderFacts PositionFacts
  ListingFacts.

(** X9.  [getLatestTag] reads the names of the listed tags in their order
    and nothing else: two listings with the same sequence of names give the
    same result after the same call, however the tags are cut into pages
    and whatever commits they point to.  This holds for every [semver]
    implementation. *)
Theorem latest_tag_reads_names_only `{Semver} (octokit octokit' : Octokit)
  (s : State) (pages pages' : list (list Tag.t)) :
  listTags octokit = inr pages ->
  listTags octokit' = inr pages' ->
  tagNames pages = tagNames pages' ->
  getLatestTag octokit' s = getLatestTag octokit s /\
  fst (getLatestTag octokit s) = after s [PaginateListTags].
Proof.
  intros Hlist Hlist' Hnames.
  rewrite !getLatestTag_selectLatest, Hlist, Hlist', Hnames. now split.
Qed.

Lemma latest_tag_of_two_pagings :
  @getLatestTag nodeSemver
    (Samples.paged [[{| Tag.name := "1.3.0"; Tag.commit_sha := "a1" |}];
                    [{| Tag.name := "1.2.3"; Tag.commit_sha := "b2" |}]])
    initial
  = @getLatestTag nodeSemver
      (Samples.paged [[{| Tag.name := "1.3.0"; Tag.commit_sha := "c3" |};
                       {| Tag.name := "1.2.3"; Tag.commit_sha := "d4" |}]])
      initial.
Proof.
  exact (proj1 (@latest_tag_reads_names_only nodeSemver
                  (Samples.paged
                     [[{| Tag.name := "1.3.0"; Tag.commit_sha := "c3" |};
                       {| Tag.name := "1.2.3"; Tag.commit_sha := "d4" |}]])
                  (Samples.paged
                     [[{| Tag.name := "1.3.0"; Tag.commit_sha := "a1" |}];
                      [{| Tag.name := "1.2.3"; Tag.commit_sha := "b2" |}]])
                  initial _ _ eq_refl eq_refl eq_refl)).
Defined.

(** X10.  Which tag [getLatestTag] returns, for a listing whose numeric
    pre-release identifiers are below 2^53-1: the tag [t] is returned
    exactly when it is a version of the listing that [semver.compare]
    places strictly before every version listed earlier and not after any
    version listed later, that is, the lowest version, and among versions
    that compare equal the one listed first. *)
Theorem latest_tag_is_first_lowest (octokit : Octokit) (s : State)
  (pages : list (list Tag.t)) (t : string) :
  listTags octokit = inr pages ->
  Forall (fun name => NodeSemver.exactTag name = true) (tagNames pages) ->
  snd (@getLatestTag nodeSemver octokit s) = inr (Some t) <->
  exists before rest,
    tagNames pages = (before ++ t :: rest)%list /\
    NodeSemver.valid t <> None /\
    (forall name, In name before -> NodeSemver.valid name <> None ->
       exists c, NodeSemver.compare name t = inr c /\ (0 < c)%Z) /\
    (forall name, In name rest -> NodeSemver.valid name <> None ->
       exists c, NodeSemver.compare t name = inr c /\ (c <= 0)%Z).
Proof.
  intros Hlist Hexact.
  rewrite getLatestTag_selectLatest, Hlist. simpl.
  rewrite (selectLatest_firstLowest _ _ Hexact). split.
  - intros (b & r & Heq & Hb & Hr).
    destruct (filter_app_cons _ _ _ _ _ Heq) as (l1 & l2 & Hnames & <- & <-).
    exists l1, l2. split; [exact Hnames|]. split.
    { apply isSemverName_valid.
      assert (Ht : In t (filter isSemverName (tagNames pages)))
        by (rewrite Heq; apply in_or_app; right; now left).
      now apply filter_In in Ht. }
    rewrite Forall_forall in Hb, Hr.
    split; intros name Hin Hvalid; [apply Hb | apply Hr];
      apply filter_In; (split; [exact Hin | now apply isSemverName_valid]).
  - intros (l1 & l2 & -> & Ht & Hb & Hr).
    exists (filter isSemverName l1), (filter isSemverName l2).
    split; [now apply filter_versions_app|].
    split; apply Forall_forall; intros name Hin; apply filter_In in Hin;
      destruct Hin as [Hin Hvalid]; apply isSemverName_valid in Hvalid;
      [now apply Hb | now apply Hr].
Qed.

Lemma latest_tag_among_equal_versions :
  snd (@getLatestTag nodeSemver
         (Examples.octokit [] ["2.0.0"; "v1.0.0"; "1.0.0+build"]) initial)
  = inr (Some "v1.0.0").
Proof.
  apply (latest_tag_is_first_lowest
           (Examples.octokit [] ["2.0.0"; "v1.0.0"; "1.0.0+build"]) initial
           [[Examples.tag "2.0.0"; Examples.tag "v1.0.0";
             Examples.tag "1.0.0+build"]]
           "v1.0.0" eq_refl).
  - repeat constructor.
  - exists ["2.0.0"], ["1.0.0+build"].
    split; [reflexivity|]. split; [discriminate|].
    split; intros name [<-|[]] _; [exists 1%Z | exists 0%Z];
      (split; [reflexivity | lia]).
Defined.

(** X11.  A tag that [semver.compare] places after the selected one does
    not change the selection, wherever it is added to the listing (numeric
    pre-release identifiers below 2^53-1): [getLatestTag] returns the same
    tag for the longer listing, and if the other answers of the client are
    the same, the whole run of [publishGitTag] is the same, so the same
    reference is asked for again. *)
Theorem greater_tag_does_not_move_selection (octokit octokit' : Octokit)
  (s : State) (pages pages' : list (list Tag.t)) (before rest : list string)
  (newTag t : string) :
  listTags octokit = inr pages ->
  listTags octokit' = inr pages' ->
  tagNames pages = (before ++ rest)%list ->
  tagNames pages' = (before ++ newTag :: rest)%list ->
  Forall (fun name => NodeSemver.exactTag name = true) (tagNames pages') ->
  snd (@getLatestTag nodeSemver octokit s) = inr (Some t) ->
  NodeSemver.compare newTag t = inr 1%Z ->
  @getLatestTag nodeSemver octokit' s = @getLatestTag nodeSemver octokit s /\
  (commits_pulls octokit' = commits_pulls octokit ->
   createRef octokit' = createRef octokit ->
   forall world : World,
     @publishGitTag nodeSemver world octokit' s
     = @publishGitTag nodeSemver world octokit s).
Proof.
  intros Hlist Hlist' Hnames Hnames' Hexact Hsel Hafter.
  rewrite getLatestTag_selectLatest, Hlist, Hnames in Hsel. simpl in Hsel.
  rewrite Hnames' in Hexact.
  pose proof (selectLatest_add before rest newTag t Hexact Hsel Hafter)
    as Hsel'.
  assert (Hlatest : forall s', @getLatestTag nodeSemver octokit' s'
                               = @getLatestTag nodeSemver octokit s').
  { intros s'.
    now rewrite !getLatestTag_selectLatest, Hlist, Hlist', Hnames, Hnames',
      Hsel, Hsel'. }
  split; [apply Hlatest|].
  intros Hpulls Href world. now apply publishGitTag_ext.
Qed.

Lemma published_tag_does_not_move_selection :
  @getLatestTag nodeSemver (Examples.octokit [] ["1.5.0"; "1.4.2"]) initial
  = @getLatestTag nodeSemver (Examples.octokit [] ["1.4.2"]) initial.
Proof.
  refine (proj1 (greater_tag_does_not_move_selection
                   (Examples.octokit [] ["1.4.2"])
                   (Examples.octokit [] ["1.5.0"; "1.4.2"]) initial
                   [[Examples.tag "1.4.2"]]
                   [[Examples.tag "1.5.0"; Examples.tag "1.4.2"]]
                   [] ["1.4.2"] "1.5.0" "1.4.2"
                   eq_refl eq_refl eq_refl eq_refl _ eq_refl eq_refl)).
  repeat constructor.
Defined.

End Listing.

Module Increments.

Import JS Action Calls CompareFacts IncrementRunFacts.

(** X12.  With a [patch], [minor] or [major] bump, [incrementTag] throws
    only on a tag that is not a version, and the message then quotes the tag
    and names the bump; on every version it returns a new tag. *)
Theorem increment_fails_on_invalid_tags_only (tag bump : string) :
  In bump [patch; minor; major] ->
  match NodeSemver.valid tag with
  | None =>
      @incrementTag nodeSemver tag bump
      = throw (Error (incrementFailure tag bump))
  | Some _ => exists newTag, @incrementTag nodeSemver tag bump = ok newTag
  end.
Proof.
  intros Hbump. unfold incrementTag. simpl.
  destruct (NodeSemver.valid tag) as [name|] eqn:Hvalid.
  - assert (Hversion : NodeSemver.valid tag <> None) by congruence.
    destruct (proj1 (valid_new tag) Hversion) as [v Hnew].
    destruct (inc_release tag bump v Hnew Hbump) as (v' & _ & _ & Hinc).
    rewrite Hinc. now eexists.
  - now rewrite (inc_invalid tag bump Hvalid).
Qed.

Lemma increment_of_invalid_tag_fails :
  @incrementTag nodeSemver "v-bad" minor
  = throw (Error (incrementFailure "v-bad" minor)).
Proof.
  exact (increment_fails_on_invalid_tags_only "v-bad" minor
           (or_intror (or_introl eq_refl))).
Defined.

(** X13.  The tag that [incrementTag] returns for a version whose
    components are below 2^53-1 is a version in canonical form:
    [semver.valid] returns it unchanged, it has neither a pre-release part
    nor build metadata, whatever leading [v], white space, pre-release part
    and build metadata the base tag has, and it can be incremented again. *)
Theorem incremented_tag_is_canonical (tag bump : string)
  (v : NodeSemver.SemVer) :
  NodeSemver.new tag = inr v ->
  In bump [patch; minor; major] ->
  (NodeSemver.major v < NodeSemver.MAX_SAFE_INTEGER)%N ->
  (NodeSemver.minor v < NodeSemver.MAX_SAFE_INTEGER)%N ->
  (NodeSemver.patch v < NodeSemver.MAX_SAFE_INTEGER)%N ->
  exists newTag v',
    @incrementTag nodeSemver tag bump = ok newTag /\
    NodeSemver.valid newTag = Some newTag /\
    NodeSemver.new newTag = inr v' /\
    NodeSemver.prerelease v' = [] /\ NodeSemver.build v' = [] /\
    NodeSemver.exactTag newTag = true /\
    forall bump', In bump' [patch; minor; major] ->
      exists next, @incrementTag nodeSemver newTag bump' = ok next.
Proof.
  intros Hnew Hbump Hmajor Hminor Hpatch.
  destruct (incSemVer_release v bump Hbump)
    as (w & Hinc & Hpre & Bmajor & Bminor & Bpatch).
  assert (Hmajor' : (NodeSemver.major w <= NodeSemver.MAX_SAFE_INTEGER)%N)
    by lia.
  assert (Hminor' : (NodeSemver.minor w <= NodeSemver.MAX_SAFE_INTEGER)%N)
    by lia.
  assert (Hpatch' : (NodeSemver.patch w <= NodeSemver.MAX_SAFE_INTEGER)%N)
    by lia.
  destruct (valid_format_release w Hpre Hmajor' Hminor' Hpatch')
    as (Hnew' & Hvalid & Hexact).
  exists (NodeSemver.format w). eexists.
  split.
  { unfold incrementTag. simpl. unfold NodeSemver.inc.
    rewrite Hnew. simpl. now rewrite Hinc. }
  split; [exact Hvalid|]. split; [exact Hnew'|].
  repeat (split; [reflexivity || assumption|]).
  intros bump' Hbump'.
  destruct (inc_release _ bump' _ Hnew' Hbump') as (w' & _ & _ & Hinc').
  eexists. unfold incrementTag. simpl. now rewrite Hinc'.
Qed.

Lemma incremented_decorated_tag_is_canonical :
  @incrementTag nodeSemver "v1.4.2-rc.1+build.5" minor = ok "1.5.0" /\
  NodeSemver.valid "1.5.0" = Some "1.5.0".
Proof.
  destruct (incremented_tag_is_canonical "v1.4.2-rc.1+build.5" minor
              {| NodeSemver.major := 1; NodeSemver.minor := 4;
                 NodeSemver.patch := 2;
                 NodeSemver.prerelease :=
                   [NodeSemver.IStr "rc"; NodeSemver.INum 1];
                 NodeSemver.build := ["build"; "5"] |}
              eq_refl (or_intror (or_introl eq_refl))
              eq_refl eq_refl eq_refl)
    as (newTag & v' & Htag & Hvalid & _).
  vm_compute in Htag. injection Htag as <-.
  split; [reflexivity | exact Hvalid].
Defined.

End Increments.
